(** * Geometric SAR properties for landslides

    A shallow embedding of [geometric_SAR_properties_for_landslides.js], an
    Earth Engine script that derives, for every landslide polygon, the local
    radar viewing geometry of one Sentinel-1 acquisition and a first-order
    estimate of geometric coherence.

    Conventions of the embedding.
    - A raster ([ee.Image] with one band) is a function from pixels to
      [option R]; [None] is a masked (no-data) pixel.  Pixel values are real
      numbers: the binary64 arithmetic of the platform is idealised, so
      rounding is outside this development.
    - Every [ee.Image] operator works pixel by pixel and masks the result
      wherever an operand is masked.
    - The script only builds deferred computations; each exported table is
      evaluated on its own.  A table therefore carries an [outcome]: either
      its rows or the failure of its evaluation.
    - Visualisation calls ([Map.addLayer], [print]) do not feed back into any
      exported value and are left out. *)

From Stdlib Require Import Reals Lra List ZArith String Bool Arith Factorial Lia.
From Stdlib Require Import Permutation Sorted.
Import ListNotations.
Open Scope string_scope.
Open Scope list_scope.
Open Scope R_scope.

(** ** Rasters *)

Definition Pixel : Type := (Z * Z)%type.

Definition pixel_eqb (p q : Pixel) : bool :=
  (Z.eqb (fst p) (fst q) && Z.eqb (snd p) (snd q))%bool.

(** A geometry (image footprint, polygon, area of interest) is the list of
    the pixels it covers on the analysis grid. *)
Definition Geometry : Type := list Pixel.

Definition contains (g : Geometry) (p : Pixel) : bool :=
  existsb (pixel_eqb p) g.

Definition intersects (g h : Geometry) : bool :=
  existsb (contains h) g.

Definition image : Type := Pixel -> option R.

Definition Projection : Type := string.

Module Image.

Definition lift1 (f : R -> R) (a : image) : image :=
  fun p => match a p with
           | Some x => Some (f x)
           | None => None
           end.

Definition lift2 (f : R -> R -> R) (a b : image) : image :=
  fun p => match a p, b p with
           | Some x, Some y => Some (f x y)
           | _, _ => None
           end.

(** [ee.Image.constant(v)]: the value [v] everywhere, nothing masked. *)
Definition constant (v : R) : image := fun _ => Some v.

Definition multiply : image -> image -> image := lift2 Rmult.
Definition subtract : image -> image -> image := lift2 Rminus.

(** [ee.Image.divide] is documented as "returning 0 for division by 0";
    [Rdiv] has the same value there, since [/ 0 = 0] in the standard
    library. *)
Definition divide : image -> image -> image := lift2 Rdiv.

Definition tan : image -> image := lift1 Rtrigo1.tan.
Definition cos : image -> image := lift1 Rtrigo_def.cos.
Definition atan : image -> image := lift1 Ratan.atan.
Definition abs : image -> image := lift1 Rabs.

(** [img.clip(g)]: pixels outside [g] become masked. *)
Definition clip (a : image) (g : Geometry) : image :=
  fun p => if contains g p then a p else None.

(** [img.setDefaultProjection(proj)] changes the grid on which the image
    is sampled, not the value a pixel of the analysis grid carries. *)
Definition setDefaultProjection (a : image) (proj : Projection) : image := a.

End Image.

(** ** Reducers and zonal statistics *)

Fixpoint insert (x : R) (l : list R) : list R :=
  match l with
  | [] => [x]
  | y :: t => if Rle_dec x y then x :: y :: t else y :: insert x t
  end.

Fixpoint sort (l : list R) : list R :=
  match l with
  | [] => []
  | x :: t => insert x (sort t)
  end.

Module Reducer.

(** Modelled from the spec: [ee.Reducer.median] is Earth Engine library
    code, absent from the repository.  Section 4.5 of the specification
    asks for the median of the multiset of valid values, the mean of the
    two middle values for an even count, and no value for an empty
    input. *)
Definition median (l : list R) : option R :=
  match sort l with
  | [] => None
  | x :: t =>
      let s := x :: t in
      let n := List.length s in
      if Nat.even n
      then Some ((nth (n / 2 - 1) s 0 + nth (n / 2) s 0) / 2)
      else Some (nth (n / 2) s 0)
  end.

(** Modelled from the spec: [ee.Reducer.mean] is Earth Engine library
    code, absent from the repository; the arithmetic mean of the valid
    values, no value for an empty input. *)
Definition mean (l : list R) : option R :=
  match l with
  | [] => None
  | _ :: _ => Some (fold_right Rplus 0 l / INR (List.length l))
  end.

End Reducer.

(** The unmasked values of a raster inside a geometry: masked pixels are
    dropped, not replaced. *)
Definition valid_values (img : image) (g : Geometry) : list R :=
  flat_map (fun p => match img p with
                     | Some v => [v]
                     | None => []
                     end) g.

Record Feature : Type := mkFeature {
  object_id : string;
  geometry_of : Geometry
}.

Record Row : Type := mkRow {
  row_id : string;
  statistic : option R
}.

Definition Table : Type := list Row.

(** Modelled from the spec: [ee.Image.reduceRegions] is Earth Engine library
    code, absent from the repository.  One row per feature, keyed by its
    [object_id]; the statistic is the reducer applied to the valid pixels of
    the feature's footprint. *)
Definition reduceRegions (img : image) (collection : list Feature)
    (reducer : list R -> option R) : Table :=
  map (fun f => mkRow (object_id f)
                      (reducer (valid_values img (geometry_of f))))
      collection.

(** Modelled from the spec: [ee.Image.reduceRegion], the same reduction over
    a single geometry. *)
Definition reduceRegion (img : image) (reducer : list R -> option R)
    (g : Geometry) : option R :=
  reducer (valid_values img g).

(** ** Inputs of the script *)

(** One image of the [COPERNICUS/S1_GRD] collection, reduced to what the
    script reads from it.  [angle] is the incidence-angle band in degrees;
    [angle_aspect] is what [ee.Terrain.aspect] returns on that band. *)
Record S1Image : Type := mkS1Image {
  acquired : Z;                      (* acquisition day, as yyyymmdd *)
  relativeOrbitNumber_start : Z;
  instrumentMode : string;
  geometry : Geometry;               (* image_s1.geometry() *)
  projection : Projection;           (* image_s1.select(1).projection() *)
  angle : image;
  angle_aspect : image
}.

(** What the data catalogue hands to the script.  [slopeReprojected] and
    [aspectReprojected] are the outputs of [ee.Terrain.slope] and
    [ee.Terrain.aspect] on the DEM mosaic, in degrees. *)
Record Scene : Type := mkScene {
  landslides : list Feature;
  AOI : Geometry;
  slopeReprojected : image;
  aspectReprojected : image;
  S1_GRD : list S1Image
}.

(** ** Deferred evaluation *)

Inductive outcome (A : Type) : Type :=
| Done (a : A)
| Raised (message : string).

Arguments Done {A} a.
Arguments Raised {A} message.

Definition bind {A B : Type} (m : outcome A) (k : A -> outcome B) : outcome B :=
  match m with
  | Done a => k a
  | Raised msg => Raised msg
  end.

Notation "x <- m ;; k" := (bind m (fun x => k))
  (at level 61, m at next level, right associativity).

(** A [null] where an image is required, and a [null] where a number is
    required: the two ways an evaluation of this script can fail. *)
Definition null_image : string := "image_s1 is null: first() of an empty collection".
Definition null_look_dir : string := "look_dir is null: no valid pixel in the reduced region".

Definition required {A : Type} (o : option A) (msg : string) : outcome A :=
  match o with
  | Some a => Done a
  | None => Raised msg
  end.

(** ** The script *)

(** Lines 38-44: the filtered Sentinel-1 stack and its first image. *)
Definition filterBounds (g : Geometry) (c : list S1Image) : list S1Image :=
  filter (fun i => intersects (geometry i) g) c.

Definition filterDate (from to : Z) (c : list S1Image) : list S1Image :=
  filter (fun i => (Z.leb from (acquired i) && Z.ltb (acquired i) to)%bool) c.

Definition filter_orbit (n : Z) (c : list S1Image) : list S1Image :=
  filter (fun i => Z.eqb (relativeOrbitNumber_start i) n) c.

Definition filter_mode (m : string) (c : list S1Image) : list S1Image :=
  filter (fun i => String.eqb (instrumentMode i) m) c.

Definition first {A : Type} (c : list A) : option A := hd_error c.

Definition image_s1 (sc : Scene) : option S1Image :=
  first (filter_mode "IW"
          (filter_orbit 19
            (filterDate 20180401 20180501
              (filterBounds (AOI sc) (S1_GRD sc))))).

(** Sensor constants of lines 151-156. *)
Definition c : R := 299792458.
Definition lambda_value : R := 5547 / 100000.
Definition r_value : R := 693000.
Definition Bw_value : R := 48300000.

(** Line 151: [var Bperp=150], "chosen as an example". *)
Definition Bperp_example : R := 150.

Section Script.

Variable sc : Scene.
Variable s1 : S1Image.         (* the value of image_s1 *)

Definition geom_s1 : Geometry := geometry s1.
Definition proj_s1 : Projection := projection s1.

(** Line 51: the look direction, the mean aspect of the incidence-angle band
    over the image's own footprint. *)
Definition look_dir : option R :=
  reduceRegion (angle_aspect s1) Reducer.mean geom_s1.

(** Line 55. *)
Definition theta_iRad : image :=
  Image.clip (Image.multiply (angle s1) (Image.constant (PI / 180))) geom_s1.

(** Lines 60-61. *)
Definition alpha_sRad : image :=
  Image.clip
    (Image.setDefaultProjection
       (Image.multiply (slopeReprojected sc) (Image.constant (PI / 180)))
       proj_s1)
    geom_s1.

Definition phi_sRad : image :=
  Image.clip
    (Image.setDefaultProjection
       (Image.multiply (aspectReprojected sc) (Image.constant (PI / 180)))
       proj_s1)
    geom_s1.

Section LookDirection.

Variable look : R.             (* the value of look_dir *)

(** Line 56. *)
Definition phi_iRad : image :=
  Image.multiply (Image.constant look) (Image.constant (PI / 180)).

(** Line 65. *)
Definition phi_rRad : image := Image.subtract phi_iRad phi_sRad.

(** Line 69. *)
Definition alpha_rRad : image :=
  Image.atan (Image.multiply (Image.tan alpha_sRad) (Image.cos phi_rRad)).

(** Line 76. *)
Definition theta_iRad_loc : image := Image.subtract theta_iRad alpha_rRad.

Section Decorrelation.

Variable Bperp : R.

(** Lines 153-158: flat images of the constants. *)
Definition flat (v : R) : image :=
  Image.clip (Image.setDefaultProjection (Image.constant v) proj_s1) geom_s1.

Definition c_im : image := flat c.
Definition lambda : image := flat lambda_value.
Definition r : image := flat r_value.
Definition Bw : image := flat Bw_value.
Definition Bp : image := flat Bperp.
Definition ones : image := flat 1.

(** Line 160. *)
Definition coh_geom : image :=
  Image.subtract ones
    (Image.divide (Image.multiply c_im Bp)
       (Image.multiply
          (Image.multiply (Image.multiply lambda r)
                          (Image.abs (Image.tan theta_iRad_loc)))
          Bw)).

End Decorrelation.

End LookDirection.

(** Lines 81-85, 94-98, 108-112, 121-125, 134-138, 165-169: the zonal
    medians.  [landslides.select(['object_id'])] keeps the identifier and the
    footprint of every polygon. *)
Definition ls_theta : Table :=
  reduceRegions theta_iRad (landslides sc) Reducer.median.

Definition ls_alpha (look : R) : Table :=
  reduceRegions (alpha_rRad look) (landslides sc) Reducer.median.

Definition ls_slope : Table :=
  reduceRegions alpha_sRad (landslides sc) Reducer.median.

Definition ls_aspect : Table :=
  reduceRegions phi_sRad (landslides sc) Reducer.median.

Definition ls_theta_alpha_difference (look : R) : Table :=
  reduceRegions (theta_iRad_loc look) (landslides sc) Reducer.median.

Definition ls_modelled_coh_geom (look Bperp : R) : Table :=
  reduceRegions (coh_geom look Bperp) (landslides sc) Reducer.median.

End Script.

(** ** Exports *)

Record ExportTask : Type := mkExport {
  collection : outcome Table;
  description : string;
  fileFormat : string;
  folder : string
}.

Definition toDrive (t : outcome Table) (d : string) : ExportTask :=
  mkExport t d "CSV" "foldername".

(** The six [Export.table.toDrive] calls, in the order of the script, each
    with the collection the script passes to it. *)
Definition exports (sc : Scene) (Bperp : R) : list ExportTask :=
  let first_image := required (image_s1 sc) null_image in
  let look := s1 <- first_image ;; required (look_dir s1) null_look_dir in
  let t_ls_theta := s1 <- first_image ;; Done (ls_theta sc s1) in
  let t_ls_alpha := s1 <- first_image ;; l <- look ;; Done (ls_alpha sc s1 l) in
  let t_ls_slope := s1 <- first_image ;; Done (ls_slope sc s1) in
  let t_ls_modelled_coh_geom :=
    s1 <- first_image ;; l <- look ;; Done (ls_modelled_coh_geom sc s1 l Bperp) in
  [ toDrive t_ls_theta "ls_theta_T019D";
    toDrive t_ls_alpha "ls_slope_in_LOS_T019D";
    toDrive t_ls_slope "ls_slopes";
    toDrive t_ls_slope "ls_aspects";
    toDrive t_ls_theta "ls_theta_alpha_difference_T019D";
    toDrive t_ls_modelled_coh_geom "ls_modelled_coh_geom_T019D" ].

Definition script (sc : Scene) : list ExportTask := exports sc Bperp_example.

(** The table a run delivers under a given description. *)
Definition exported (sc : Scene) (Bperp : R) (d : string) : option (outcome Table) :=
  option_map collection
    (find (fun t => String.eqb (description t) d) (exports sc Bperp)).

(** ** Concrete scenes

    One landslide polygon covering one pixel, one Sentinel-1 image of
    relative orbit 19 acquired on 2018-04-10 whose footprint is that pixel,
    and uniform rasters. *)

Definition pixel0 : Pixel := (0, 0)%Z.

Definition footprint0 : Geometry := [pixel0].

Definition s1_uniform (ang look : R) : S1Image :=
  mkS1Image 20180410 19 "IW" footprint0 "EPSG:32645"
            (Image.constant ang) (Image.constant look).

Definition scene_uniform (slope aspect ang look : R) : Scene :=
  mkScene [mkFeature "landslide1" footprint0] footprint0
          (Image.constant slope) (Image.constant aspect)
          [s1_uniform ang look].

(** A 30 degree slope facing the sensor (aspect equal to the look direction
    of 100 degrees), seen at 40 degrees of incidence. *)
Definition scene_facing : Scene := scene_uniform 30 100 40 100.

(** The same slope turned a quarter of a circle away from the look
    direction. *)
Definition scene_sideways : Scene := scene_uniform 30 10 40 100.

(** A 39.5 degree slope facing the sensor at 40 degrees of incidence. *)
Definition scene_grazing : Scene := scene_uniform (79 / 2) 100 40 100.

(** Flat ground seen at 0.6 rad of incidence. *)
Definition scene_reference : Scene := scene_uniform 0 100 (108 / PI) 100.

(** Flat ground seen at 45 degrees of incidence. *)
Definition scene_flat45 : Scene := scene_uniform 0 100 45 100.

(** An area of interest that no image of the collection touches. *)
Definition scene_no_overlap : Scene :=
  mkScene [mkFeature "landslide1" footprint0] [(5, 5)%Z]
          (Image.constant 30) (Image.constant 100)
          [s1_uniform 40 100].

(** An image whose incidence-angle band has no valid aspect anywhere. *)
Definition s1_no_aspect : S1Image :=
  mkS1Image 20180410 19 "IW" footprint0 "EPSG:32645"
            (Image.constant 40) (fun _ => None).

Definition scene_no_aspect : Scene :=
  mkScene [mkFeature "landslide1" footprint0] footprint0
          (Image.constant 30) (Image.constant 100)
          [s1_no_aspect].

(** A polygon of three pixels, two of them outside the image footprint, and
    a polygon wholly outside it. *)
Definition polygon_partly_covered : Feature :=
  mkFeature "landslide2" [(1, 0)%Z; pixel0; (0, 1)%Z].

Definition polygon_uncovered : Feature :=
  mkFeature "landslide3" [(1, 0)%Z; (0, 1)%Z].

(** ** Further scenes and shorthands for the properties beyond the claims *)

(** The four tests of lines 39-43 on one image of the collection. *)
Definition passes_filters (sc : Scene) (i : S1Image) : bool :=
  (intersects (geometry i) (AOI sc)
   && (Z.leb 20180401 (acquired i) && Z.ltb (acquired i) 20180501)
   && Z.eqb (relativeOrbitNumber_start i) 19
   && String.eqb (instrumentMode i) "IW")%bool.

Definition pixel1 : Pixel := (1, 0)%Z.

(** An image of another relative orbit over the same pixel. *)
Definition s1_other_orbit : S1Image :=
  mkS1Image 20180405 92 "IW" footprint0 "EPSG:32645"
            (Image.constant 35) (Image.constant 280).

Definition scene_two_images : Scene :=
  mkScene [mkFeature "landslide1" footprint0] footprint0
          (Image.constant 30) (Image.constant 100)
          [s1_other_orbit; s1_uniform 40 100].

(** [scene_facing] with every bearing turned by 10 degrees. *)
Definition scene_rotated : Scene := scene_uniform 30 (100 + 10) 40 (100 + 10).


(** An image of two pixels seen at 40 and 45 degrees of incidence, whose
    aspect raster holds the bearings 350 and 10 degrees. *)
Definition s1_two_pixels : S1Image :=
  mkS1Image 20180410 19 "IW" [pixel0; pixel1] "EPSG:32645"
            (fun p => if pixel_eqb p pixel0 then Some 40 else Some 45)
            (fun p => if pixel_eqb p pixel0 then Some 350 else Some (360 - 350)).

Definition scene_two_pixels : Scene :=
  mkScene [mkFeature "landslide1" [pixel0; pixel1]] [pixel0; pixel1]
          (Image.constant 0) (Image.constant 100)
          [s1_two_pixels].

(** A scene whose only landslide lies outside the image footprint. *)
Definition scene_outside : Scene :=
  mkScene [polygon_uncovered] footprint0
          (Image.constant 30) (Image.constant 100)
          [s1_uniform 40 100].

(** The same polygon with its pixels listed in two orders. *)
Definition polygon_listed : Feature :=
  mkFeature "landslide4" [pixel0; pixel1].

Definition polygon_relisted : Feature :=
  mkFeature "landslide4" [pixel1; pixel0].

(** ** The formula of the specification

    Section 4.4 of the specification writes the coherence as
    1 - (c Bperp) / (lambda r Bw |tan(theta)|); line 160 of the script
    multiplies the factors of the denominator in another order. *)
Definition spec_coherence (c0 Bperp0 lambda0 r0 Bw0 theta : R) : R :=
  1 - (c0 * Bperp0) / (lambda0 * r0 * Bw0 * Rabs (tan theta)).

Definition reference_coherence : R :=
  spec_coherence 299792458 150 (5547 / 100000) 693000 48300000 (6 / 10).

(** ** Tactics *)

(** Unfolds the raster operators down to their value at one pixel. *)
Ltac unfold_ops :=
  unfold Image.subtract, Image.multiply, Image.divide, Image.tan, Image.cos,
    Image.atan, Image.abs, Image.setDefaultProjection, Image.constant,
    Image.lift1, Image.lift2, Image.clip in *.

(** Replaces every [INR (fact k)] of a hypothesis by its numeral. *)
Ltac eval_factorials :=
  repeat match goal with
    | H : context [INR (fact ?k)] |- _ =>
        let v := eval vm_compute in (Z.of_nat (fact k)) in
        replace (INR (fact k)) with (IZR v) in H
          by (rewrite INR_IZR_INZ; apply f_equal; vm_compute; reflexivity)
    end.

(** ** Pixel-wise reading of the raster expressions *)

Lemma alpha_rRad_at (sc : Scene) (s1 : S1Image) (look : R) (p : Pixel) (a : R) :
  alpha_rRad sc s1 look p = Some a <->
  exists s f, alpha_sRad sc s1 p = Some s /\
              phi_rRad sc s1 look p = Some f /\
              a = atan (tan s * cos f).
Proof.
  unfold alpha_rRad; unfold_ops.
  destruct (alpha_sRad sc s1 p) as [s|], (phi_rRad sc s1 look p) as [f|];
    split; intros H.
  - exists s, f. inversion H. auto.
  - destruct H as (s' & f' & Hs & Hf & ->). congruence.
  - discriminate.
  - destruct H as (s' & f' & Hs & Hf & _). discriminate.
  - discriminate.
  - destruct H as (s' & f' & Hs & Hf & _). discriminate.
  - discriminate.
  - destruct H as (s' & f' & Hs & Hf & _). discriminate.
Qed.

Lemma theta_iRad_loc_at (sc : Scene) (s1 : S1Image) (look : R) (p : Pixel) (t : R) :
  theta_iRad_loc sc s1 look p = Some t <->
  exists ti ar, theta_iRad s1 p = Some ti /\
                alpha_rRad sc s1 look p = Some ar /\
                t = ti - ar.
Proof.
  unfold theta_iRad_loc, Image.subtract, Image.lift2.
  destruct (theta_iRad s1 p) as [ti|], (alpha_rRad sc s1 look p) as [ar|];
    split; intros H;
    try discriminate;
    try (destruct H as (ti' & ar' & Hti & Har & Ht); try discriminate).
  - exists ti, ar. inversion H. auto.
  - congruence.
Qed.

Lemma phi_rRad_at (sc : Scene) (s1 : S1Image) (look : R) (p : Pixel) (asp : R) :
  contains (geometry s1) p = true ->
  aspectReprojected sc p = Some asp ->
  phi_rRad sc s1 look p = Some (look * (PI / 180) - asp * (PI / 180)).
Proof.
  intros Hin Hasp.
  unfold phi_rRad, phi_iRad, phi_sRad, geom_s1; unfold_ops.
  rewrite Hin, Hasp. reflexivity.
Qed.

Lemma alpha_sRad_at (sc : Scene) (s1 : S1Image) (p : Pixel) (slope : R) :
  contains (geometry s1) p = true ->
  slopeReprojected sc p = Some slope ->
  alpha_sRad sc s1 p = Some (slope * (PI / 180)).
Proof.
  intros Hin Hs.
  unfold alpha_sRad, geom_s1; unfold_ops.
  rewrite Hin, Hs. reflexivity.
Qed.

Lemma theta_iRad_at (s1 : S1Image) (p : Pixel) (ang : R) :
  contains (geometry s1) p = true ->
  angle s1 p = Some ang ->
  theta_iRad s1 p = Some (ang * (PI / 180)).
Proof.
  intros Hin Ha.
  unfold theta_iRad, geom_s1; unfold_ops.
  rewrite Hin, Ha. reflexivity.
Qed.

(** A valid pixel of [theta_iRad] lies inside the image footprint. *)
Lemma theta_iRad_inside (s1 : S1Image) (p : Pixel) (ti : R) :
  theta_iRad s1 p = Some ti -> contains (geometry s1) p = true.
Proof.
  unfold theta_iRad, geom_s1; unfold_ops.
  destruct (contains (geometry s1) p); [reflexivity | discriminate].
Qed.

Lemma theta_iRad_loc_inside (sc : Scene) (s1 : S1Image) (look : R) (p : Pixel) (t : R) :
  theta_iRad_loc sc s1 look p = Some t -> contains (geometry s1) p = true.
Proof.
  intros H. apply theta_iRad_loc_at in H.
  destruct H as (ti & ar & Hti & _ & _).
  eapply theta_iRad_inside; eassumption.
Qed.

(** The coherence raster, read at one pixel: valid exactly where the local
    incidence angle is valid, with the value of line 160. *)
Lemma coh_geom_at (sc : Scene) (s1 : S1Image) (look Bperp : R) (p : Pixel) (t : R) :
  theta_iRad_loc sc s1 look p = Some t ->
  coh_geom sc s1 look Bperp p =
  Some (1 - (c * Bperp) / (lambda_value * r_value * Rabs (tan t) * Bw_value)).
Proof.
  intros Ht.
  pose proof (theta_iRad_loc_inside _ _ _ _ _ Ht) as Hin.
  unfold coh_geom, ones, c_im, Bp, lambda, r, Bw, flat, geom_s1; unfold_ops.
  rewrite Hin, Ht. reflexivity.
Qed.

Lemma coh_geom_masked (sc : Scene) (s1 : S1Image) (look Bperp : R) (p : Pixel) :
  theta_iRad_loc sc s1 look p = None ->
  coh_geom sc s1 look Bperp p = None.
Proof.
  intros Ht.
  unfold coh_geom, ones, c_im, Bp, lambda, r, Bw, flat, geom_s1; unfold_ops.
  rewrite Ht. destruct (contains (geometry s1) p); reflexivity.
Qed.

(** ** Real-analysis facts used below *)

Lemma atan_le (x y : R) : x <= y -> atan x <= atan y.
Proof.
  intros [Hlt | ->].
  - left. now apply atan_increasing.
  - right. reflexivity.
Qed.

Lemma tan_nonneg (s : R) : 0 <= s < PI / 2 -> 0 <= tan s.
Proof.
  intros [[Hpos | <-] Hlt].
  - left. now apply tan_gt_0.
  - rewrite tan_0. lra.
Qed.

Lemma projected_tangent_bound (s f : R) :
  0 <= s < PI / 2 -> - tan s <= tan s * cos f <= tan s.
Proof.
  intros Hs.
  pose proof (tan_nonneg s Hs) as Ht.
  pose proof (COS_bound f) as [Hlo Hhi].
  split; nra.
Qed.

Lemma c_pos : 0 < c.
Proof. unfold c. lra. Qed.

Lemma image_s1_uniform (slope aspect ang look : R) :
  image_s1 (scene_uniform slope aspect ang look) = Some (s1_uniform ang look).
Proof. reflexivity. Qed.

(** A slope that faces the sensor is seen at its full steepness. *)
Lemma alpha_rRad_facing (sc : Scene) (s1 : S1Image) (look : R) (p : Pixel)
    (slope : R) :
  contains (geometry s1) p = true ->
  slopeReprojected sc p = Some slope ->
  -90 < slope < 90 ->
  aspectReprojected sc p = Some look ->
  alpha_rRad sc s1 look p = Some (slope * (PI / 180)).
Proof.
  intros Hin Hs Hrange Ha.
  apply alpha_rRad_at.
  exists (slope * (PI / 180)), (look * (PI / 180) - look * (PI / 180)).
  repeat split.
  - now apply alpha_sRad_at.
  - now apply phi_rRad_at.
  - rewrite Rminus_diag, cos_0, Rmult_1_r, atan_tan; [reflexivity|].
    pose proof PI_RGT_0. split; nra.
Qed.

Lemma theta_iRad_loc_facing (sc : Scene) (s1 : S1Image) (look : R) (p : Pixel)
    (ang slope : R) :
  contains (geometry s1) p = true ->
  angle s1 p = Some ang ->
  slopeReprojected sc p = Some slope ->
  -90 < slope < 90 ->
  aspectReprojected sc p = Some look ->
  theta_iRad_loc sc s1 look p = Some ((ang - slope) * (PI / 180)).
Proof.
  intros Hin Hang Hs Hrange Ha.
  apply theta_iRad_loc_at.
  exists (ang * (PI / 180)), (slope * (PI / 180)).
  repeat split.
  - now apply theta_iRad_at.
  - now apply alpha_rRad_facing.
  - ring.
Qed.

(** ** Radar geometry *)

(** C3: at every pixel the range-direction slope steepness is
    atan(tan(alpha_s) * cos(phi_r)) and the local incidence angle is
    theta_i - alpha_r.  A 30 degree slope at relative aspect 0 gives
    alpha_r = 30 degrees, at relative aspect 90 degrees it gives alpha_r = 0,
    and 40 degrees of incidence with alpha_r = 30 degrees give a local
    incidence angle of 10 degrees (angles in radians, one degree being
    PI / 180). *)
Theorem C3_range_slope_and_local_incidence :
  forall (sc : Scene) (s1 : S1Image) (look : R) (p : Pixel),
    (forall s f, alpha_sRad sc s1 p = Some s ->
                 phi_rRad sc s1 look p = Some f ->
                 alpha_rRad sc s1 look p = Some (atan (tan s * cos f)))
    /\ (forall ti ar, theta_iRad s1 p = Some ti ->
                      alpha_rRad sc s1 look p = Some ar ->
                      theta_iRad_loc sc s1 look p = Some (ti - ar))
    /\ (contains (geometry s1) p = true ->
        slopeReprojected sc p = Some 30 ->
        aspectReprojected sc p = Some look ->
        alpha_rRad sc s1 look p = Some (30 * (PI / 180)))
    /\ (contains (geometry s1) p = true ->
        slopeReprojected sc p = Some 30 ->
        aspectReprojected sc p = Some (look - 90) ->
        alpha_rRad sc s1 look p = Some 0)
    /\ (contains (geometry s1) p = true ->
        angle s1 p = Some 40 ->
        slopeReprojected sc p = Some 30 ->
        aspectReprojected sc p = Some look ->
        theta_iRad_loc sc s1 look p = Some (10 * (PI / 180))).
Proof.
  intros sc s1 look p.
  repeat split.
  - intros s f Hs Hf. apply alpha_rRad_at. exists s, f. auto.
  - intros ti ar Hti Har. apply theta_iRad_loc_at. exists ti, ar. auto.
  - intros Hin Hs Ha. apply alpha_rRad_facing; auto. lra.
  - intros Hin Hs Ha.
    apply alpha_rRad_at.
    exists (30 * (PI / 180)), (look * (PI / 180) - (look - 90) * (PI / 180)).
    repeat split.
    + now apply alpha_sRad_at.
    + now apply phi_rRad_at.
    + replace (look * (PI / 180) - (look - 90) * (PI / 180)) with (PI / 2)
        by field.
      rewrite cos_PI2, Rmult_0_r, atan_0. reflexivity.
  - intros Hin Hang Hs Ha.
    replace (10 * (PI / 180)) with ((40 - 30) * (PI / 180)) by ring.
    apply theta_iRad_loc_facing; auto. lra.
Qed.

Lemma C3_witness :
  alpha_rRad scene_facing (s1_uniform 40 100) 100 pixel0
  = Some (atan (tan (30 * (PI / 180))
                * cos (100 * (PI / 180) - 100 * (PI / 180))))
  /\ theta_iRad_loc scene_facing (s1_uniform 40 100) 100 pixel0
     = Some (40 * (PI / 180) - 30 * (PI / 180))
  /\ alpha_rRad scene_facing (s1_uniform 40 100) 100 pixel0
     = Some (30 * (PI / 180))
  /\ alpha_rRad scene_sideways (s1_uniform 40 100) 100 pixel0 = Some 0
  /\ theta_iRad_loc scene_facing (s1_uniform 40 100) 100 pixel0
     = Some (10 * (PI / 180)).
Proof.
  pose proof (C3_range_slope_and_local_incidence
                scene_facing (s1_uniform 40 100) 100 pixel0)
    as (Hrange & Hlocal & Hfacing & _ & Hloc).
  pose proof (C3_range_slope_and_local_incidence
                scene_sideways (s1_uniform 40 100) 100 pixel0)
    as (_ & _ & _ & Hside & _).
  assert (H30 : alpha_rRad scene_facing (s1_uniform 40 100) 100 pixel0
                = Some (30 * (PI / 180))).
  { apply Hfacing; reflexivity. }
  split; [| split; [| split; [| split]]].
  - apply Hrange; reflexivity.
  - apply Hlocal; [reflexivity | exact H30].
  - exact H30.
  - apply Hside; [reflexivity | reflexivity |].
    change (Some 10 = Some (100 - 90)). f_equal. lra.
  - apply Hloc; reflexivity.
Defined.

(** C5: for a slope alpha_s in [0, 90 degrees) the range-direction slope
    steepness never exceeds the slope in magnitude: |alpha_r| <= alpha_s. *)
Theorem C5_range_slope_bounded_by_slope :
  forall (sc : Scene) (s1 : S1Image) (look : R) (p : Pixel) (s a : R),
    alpha_sRad sc s1 p = Some s ->
    0 <= s < PI / 2 ->
    alpha_rRad sc s1 look p = Some a ->
    Rabs a <= s.
Proof.
  intros sc s1 look p s a Hs Hrange Ha.
  apply alpha_rRad_at in Ha.
  destruct Ha as (s' & f & Hs' & _ & ->).
  assert (s' = s) by congruence. subst s'.
  destruct (projected_tangent_bound s f Hrange) as [Hlo Hhi].
  assert (Hinv : atan (tan s) = s).
  { apply atan_tan. pose proof PI_RGT_0. lra. }
  apply Rabs_le. split.
  - rewrite <- Hinv at 1. rewrite <- atan_opp. now apply atan_le.
  - rewrite <- Hinv at 2. now apply atan_le.
Qed.

Lemma C5_witness :
  Rabs (30 * (PI / 180)) <= 30 * (PI / 180).
Proof.
  apply (C5_range_slope_bounded_by_slope
           scene_facing (s1_uniform 40 100) 100 pixel0).
  - reflexivity.
  - pose proof PI_RGT_0. lra.
  - apply alpha_rRad_facing; try reflexivity. lra.
Defined.

(** C9: the range-direction slope steepness always lies strictly between
    -PI/2 and PI/2, so the local incidence angle stays strictly between
    theta_i - PI/2 and theta_i + PI/2. *)
Theorem C9_range_slope_in_open_quarter_turn :
  forall (sc : Scene) (s1 : S1Image) (look : R) (p : Pixel),
    (forall a, alpha_rRad sc s1 look p = Some a -> - (PI / 2) < a < PI / 2)
    /\ (forall t, theta_iRad_loc sc s1 look p = Some t ->
                  exists ti, theta_iRad s1 p = Some ti /\
                             ti - PI / 2 < t < ti + PI / 2).
Proof.
  intros sc s1 look p.
  assert (Hbound : forall a, alpha_rRad sc s1 look p = Some a ->
                             - (PI / 2) < a < PI / 2).
  { intros a Ha. apply alpha_rRad_at in Ha.
    destruct Ha as (s & f & _ & _ & ->).
    pose proof (atan_bound (tan s * cos f)). lra. }
  split; [exact Hbound |].
  intros t Ht. apply theta_iRad_loc_at in Ht.
  destruct Ht as (ti & ar & Hti & Har & ->).
  exists ti. split; [exact Hti |].
  specialize (Hbound ar Har). lra.
Qed.

Lemma C9_witness :
  - (PI / 2) < 30 * (PI / 180) < PI / 2
  /\ exists ti, theta_iRad (s1_uniform 40 100) pixel0 = Some ti /\
                ti - PI / 2 < 10 * (PI / 180) < ti + PI / 2.
Proof.
  pose proof (C9_range_slope_in_open_quarter_turn
                scene_facing (s1_uniform 40 100) 100 pixel0) as [Ha Ht].
  split.
  - apply Ha. apply alpha_rRad_facing; try reflexivity. lra.
  - apply Ht.
    replace (10 * (PI / 180)) with ((40 - 30) * (PI / 180)) by ring.
    apply theta_iRad_loc_facing; try reflexivity. lra.
Defined.

(** ** Decorrelation model *)

Lemma inv_nonneg (d : R) : 0 <= d -> 0 <= / d.
Proof.
  intros [Hpos | <-].
  - left. now apply Rinv_0_lt_compat.
  - rewrite Rinv_0. lra.
Qed.

Lemma denominator_nonneg (t : R) :
  0 <= lambda_value * r_value * Rabs (tan t) * Bw_value.
Proof.
  pose proof (Rabs_pos (tan t)).
  unfold lambda_value, r_value, Bw_value. nra.
Qed.

Lemma denominator_pos (t : R) :
  tan t <> 0 -> 0 < lambda_value * r_value * Rabs (tan t) * Bw_value.
Proof.
  intros Ht. pose proof (Rabs_pos_lt (tan t) Ht).
  unfold lambda_value, r_value, Bw_value. nra.
Qed.

Lemma denominator_even (t : R) :
  lambda_value * r_value * Rabs (tan (- t)) * Bw_value
  = lambda_value * r_value * Rabs (tan t) * Bw_value.
Proof. now rewrite tan_neg, Rabs_Ropp. Qed.

(** C4: at a fixed pixel the modelled coherence is 1 for a zero baseline and
    does not increase when the perpendicular baseline grows.  Where the
    tangent of the local incidence angle vanishes the quotient is the 0 that
    [ee.Image.divide] returns for a zero divisor, and the statement holds
    there as well. *)
Theorem C4_coherence_monotone_in_baseline :
  forall (sc : Scene) (s1 : S1Image) (look : R) (p : Pixel) (t : R),
    theta_iRad_loc sc s1 look p = Some t ->
    coh_geom sc s1 look 0 p = Some 1
    /\ forall B1 B2, 0 <= B1 -> B1 <= B2 ->
         exists v1 v2, coh_geom sc s1 look B1 p = Some v1 /\
                       coh_geom sc s1 look B2 p = Some v2 /\
                       v2 <= v1.
Proof.
  intros sc s1 look p t Ht. split.
  - rewrite (coh_geom_at _ _ _ _ _ _ Ht). f_equal.
    unfold Rdiv. rewrite Rmult_0_r, Rmult_0_l. lra.
  - intros B1 B2 H1 H12.
    rewrite !(coh_geom_at _ _ _ _ _ _ Ht).
    eexists. eexists. split; [reflexivity | split; [reflexivity |]].
    pose proof (inv_nonneg _ (denominator_nonneg t)) as Hinv.
    pose proof c_pos as Hc.
    unfold Rdiv.
    set (k := / (lambda_value * r_value * Rabs (tan t) * Bw_value)) in *.
    assert (c * B1 <= c * B2) by nra.
    nra.
Qed.

(** C10: where the tangent of the local incidence angle is not zero and the
    baseline is not negative, the unclamped coherence is at most 1, so an
    upper clamp would change nothing; and the value depends only on the
    magnitude of the angle: a pixel at the opposite angle has the same
    coherence. *)
Theorem C10_raw_coherence_at_most_one :
  forall (sc : Scene) (s1 : S1Image) (look Bperp : R) (p : Pixel) (t : R),
    theta_iRad_loc sc s1 look p = Some t ->
    tan t <> 0 ->
    0 <= Bperp ->
    exists v, coh_geom sc s1 look Bperp p = Some v
              /\ v <= 1
              /\ Rmin v 1 = v
              /\ 0 <= (c * Bperp)
                      / (lambda_value * r_value * Rabs (tan t) * Bw_value)
              /\ forall q, theta_iRad_loc sc s1 look q = Some (- t) ->
                           coh_geom sc s1 look Bperp q = Some v.
Proof.
  intros sc s1 look Bperp p t Ht Htan HB.
  rewrite (coh_geom_at _ _ _ _ _ _ Ht).
  eexists. split; [reflexivity |].
  pose proof (Rinv_0_lt_compat _ (denominator_pos t Htan)) as Hinv.
  pose proof c_pos as Hc.
  assert (Hterm : 0 <= (c * Bperp)
                       / (lambda_value * r_value * Rabs (tan t) * Bw_value)).
  { unfold Rdiv.
    set (k := / (lambda_value * r_value * Rabs (tan t) * Bw_value)) in *.
    assert (0 <= c * Bperp) by nra. nra. }
  repeat split.
  - lra.
  - apply Rmin_left. lra.
  - exact Hterm.
  - intros q Hq.
    rewrite (coh_geom_at _ _ _ _ _ _ Hq), denominator_even. reflexivity.
Qed.

Lemma theta_iRad_loc_flat45 :
  theta_iRad_loc scene_flat45 (s1_uniform 45 100) 100 pixel0
  = Some ((45 - 0) * (PI / 180)).
Proof. apply theta_iRad_loc_facing; try reflexivity. lra. Qed.

Lemma tan_flat45 : tan ((45 - 0) * (PI / 180)) <> 0.
Proof.
  replace ((45 - 0) * (PI / 180)) with (PI / 4) by field.
  rewrite tan_PI4. lra.
Qed.

Lemma C4_witness :
  coh_geom scene_flat45 (s1_uniform 45 100) 100 0 pixel0 = Some 1
  /\ forall B1 B2, 0 <= B1 -> B1 <= B2 ->
       exists v1 v2,
         coh_geom scene_flat45 (s1_uniform 45 100) 100 B1 pixel0 = Some v1 /\
         coh_geom scene_flat45 (s1_uniform 45 100) 100 B2 pixel0 = Some v2 /\
         v2 <= v1.
Proof.
  apply (C4_coherence_monotone_in_baseline
           scene_flat45 (s1_uniform 45 100) 100 pixel0 ((45 - 0) * (PI / 180))).
  exact theta_iRad_loc_flat45.
Defined.

Lemma C10_witness :
  exists v, coh_geom scene_flat45 (s1_uniform 45 100) 100 150 pixel0 = Some v
            /\ v <= 1.
Proof.
  destruct (C10_raw_coherence_at_most_one
              scene_flat45 (s1_uniform 45 100) 100 150 pixel0
              ((45 - 0) * (PI / 180)))
    as (v & Hv & Hle & _).
  - exact theta_iRad_loc_flat45.
  - exact tan_flat45.
  - lra.
  - exists v. split; assumption.
Defined.

(** *** Enclosures of the trigonometric values the examples need *)

Lemma sin_reference : 5646 / 10000 < sin (6 / 10) < 5647 / 10000.
Proof.
  assert (H0 : 0 <= 6 / 10) by lra.
  assert (H1 : 6 / 10 <= PI) by (pose proof PI2_1; lra).
  destruct (SIN (6 / 10) H0 H1) as [Hlo Hhi].
  unfold sin_lb, sin_ub, sin_approx, sin_term in *.
  cbn [sum_f_R0] in *.
  eval_factorials.
  cbn [Nat.mul Nat.add pow] in *.
  split; lra.
Qed.

Lemma cos_reference : 8253 / 10000 < cos (6 / 10) < 8254 / 10000.
Proof.
  assert (H0 : - PI / 2 <= 6 / 10) by (pose proof PI2_1; lra).
  assert (H1 : 6 / 10 <= PI / 2) by (pose proof PI2_1; lra).
  destruct (COS (6 / 10) H0 H1) as [Hlo Hhi].
  unfold cos_lb, cos_ub, cos_approx, cos_term in *.
  cbn [sum_f_R0] in *.
  eval_factorials.
  cbn [Nat.mul Nat.add pow] in *.
  split; lra.
Qed.

Lemma tan_reference : 684 / 1000 < tan (6 / 10) < 6843 / 10000.
Proof.
  pose proof sin_reference as [Hs1 Hs2].
  pose proof cos_reference as [Hc1 Hc2].
  assert (H : sin (6 / 10) = tan (6 / 10) * cos (6 / 10)).
  { unfold tan. field. lra. }
  split; nra.
Qed.

Lemma cos_above_parabola (x : R) : 0 < x < PI -> 1 - x * x / 2 < cos x.
Proof.
  intros [Hpos Hlt].
  replace x with (2 * (x / 2)) at 3 by field.
  rewrite cos_2a_sin.
  assert (H0 : 0 < sin (x / 2)) by (apply sin_gt_0; lra).
  assert (H1 : sin (x / 2) < x / 2) by (apply sin_lt_x; lra).
  nra.
Qed.

Lemma tan_small (x : R) : 0 < x <= 1 / 90 -> 0 < tan x < 113 / 10000.
Proof.
  intros [Hpos Hle].
  pose proof PI2_1 as Hpi.
  assert (Hcos : 1 - x * x / 2 < cos x) by (apply cos_above_parabola; lra).
  assert (Hsin : sin x < x) by (apply sin_lt_x; lra).
  assert (Htan : 0 < tan x) by (apply tan_gt_0; lra).
  assert (Hc : 9999 / 10000 < cos x) by nra.
  assert (H : sin x = tan x * cos x).
  { unfold tan. field. lra. }
  split; [exact Htan | nra].
Qed.

Lemma quotient_above_one (n d : R) : 0 < d -> d < n -> 1 < n / d.
Proof.
  intros Hd Hlt.
  pose proof (Rinv_0_lt_compat d Hd) as Hinv.
  assert (Hone : d * / d = 1) by (field; lra).
  unfold Rdiv. nra.
Qed.

Lemma theta_iRad_loc_reference :
  theta_iRad_loc scene_reference (s1_uniform (108 / PI) 100) 100 pixel0
  = Some (6 / 10).
Proof.
  replace (6 / 10) with ((108 / PI - 0) * (PI / 180))
    by (field; exact PI_neq0).
  apply theta_iRad_loc_facing; try reflexivity. lra.
Qed.

(** C7: at a pixel whose local incidence angle is 0.6 rad, with the
    constants of the script and a baseline of 150 m, the coherence raster
    holds the value of the specification's formula (so it is within a
    relative tolerance of 1e-9 of it), a number between 0.96459 and 0.96461;
    and for a zero baseline the value is exactly 1 at every angle other than
    0 and PI. *)
Theorem C7_reference_coherence :
  forall (sc : Scene) (s1 : S1Image) (look : R) (p : Pixel),
    (theta_iRad_loc sc s1 look p = Some (6 / 10) ->
     exists v, coh_geom sc s1 look Bperp_example p = Some v
               /\ v = reference_coherence
               /\ Rabs (v - reference_coherence)
                  <= 1 / 1000000000 * Rabs reference_coherence
               /\ 96459 / 100000 < v < 96461 / 100000)
    /\ (forall t, theta_iRad_loc sc s1 look p = Some t ->
                  t <> 0 -> t <> PI ->
                  coh_geom sc s1 look 0 p = Some 1).
Proof.
  intros sc s1 look p. split.
  - intros Ht.
    rewrite (coh_geom_at _ _ _ _ _ _ Ht).
    eexists. split; [reflexivity |].
    assert (Heq : 1 - c * Bperp_example
                      / (lambda_value * r_value * Rabs (tan (6 / 10)) * Bw_value)
                  = reference_coherence).
    { unfold reference_coherence, spec_coherence, c, Bperp_example,
        lambda_value, r_value, Bw_value.
      f_equal. f_equal. ring. }
    rewrite Heq.
    split; [reflexivity |].
    split.
    + rewrite Rminus_diag, Rabs_R0.
      pose proof (Rabs_pos reference_coherence). lra.
    + pose proof tan_reference as [Hlo Hhi].
      unfold reference_coherence, spec_coherence.
      rewrite (Rabs_right (tan (6 / 10))) by lra.
      set (T := tan (6 / 10)) in *.
      set (D := 5547 / 100000 * 693000 * 48300000 * T) in *.
      assert (HD : D = 1856686293000 * T) by (unfold D; lra).
      assert (Hd : 0 < D) by lra.
      pose proof (Rinv_0_lt_compat _ Hd) as Hinv.
      assert (Hone : D * / D = 1) by (field; lra).
      unfold Rdiv.
      set (k := / D) in *.
      assert (Hup : 299792458 * 150 * k < 3541 / 100000 * D * k)
        by (apply Rmult_lt_compat_r; lra).
      assert (Hdn : 3539 / 100000 * D * k < 299792458 * 150 * k)
        by (apply Rmult_lt_compat_r; lra).
      rewrite (Rmult_assoc _ D k), Hone in Hup.
      rewrite (Rmult_assoc _ D k), Hone in Hdn.
      split; lra.
  - intros t Ht _ _.
    rewrite (coh_geom_at _ _ _ _ _ _ Ht). f_equal.
    unfold Rdiv. rewrite Rmult_0_r, Rmult_0_l. lra.
Qed.

Lemma C7_witness :
  (exists v, coh_geom scene_reference (s1_uniform (108 / PI) 100) 100
                      Bperp_example pixel0 = Some v
             /\ 96459 / 100000 < v < 96461 / 100000)
  /\ coh_geom scene_reference (s1_uniform (108 / PI) 100) 100 0 pixel0
     = Some 1.
Proof.
  destruct (C7_reference_coherence
              scene_reference (s1_uniform (108 / PI) 100) 100 pixel0)
    as [Href Hzero].
  split.
  - destruct (Href theta_iRad_loc_reference) as (v & Hv & _ & _ & Hrange).
    exists v. split; assumption.
  - apply (Hzero (6 / 10) theta_iRad_loc_reference).
    + lra.
    + pose proof PI2_1. lra.
Defined.

(** ** What the export tasks deliver *)

Lemma look_dir_uniform (ang look : R) :
  look_dir (s1_uniform ang look) = Some look.
Proof.
  unfold look_dir, reduceRegion, Reducer.mean. cbn.
  f_equal. field.
Qed.

Lemma exported_ls_theta (sc : Scene) (B : R) (s1 : S1Image) :
  image_s1 sc = Some s1 ->
  exported sc B "ls_theta_T019D" = Some (Done (ls_theta sc s1)).
Proof. intros H. unfold exported, exports, toDrive. rewrite H. reflexivity. Qed.

Lemma exported_ls_slopes (sc : Scene) (B : R) (s1 : S1Image) :
  image_s1 sc = Some s1 ->
  exported sc B "ls_slopes" = Some (Done (ls_slope sc s1)).
Proof. intros H. unfold exported, exports, toDrive. rewrite H. reflexivity. Qed.

Lemma exported_ls_aspects (sc : Scene) (B : R) (s1 : S1Image) :
  image_s1 sc = Some s1 ->
  exported sc B "ls_aspects" = Some (Done (ls_slope sc s1)).
Proof. intros H. unfold exported, exports, toDrive. rewrite H. reflexivity. Qed.

Lemma exported_ls_theta_alpha_difference (sc : Scene) (B : R) (s1 : S1Image) :
  image_s1 sc = Some s1 ->
  exported sc B "ls_theta_alpha_difference_T019D" = Some (Done (ls_theta sc s1)).
Proof. intros H. unfold exported, exports, toDrive. rewrite H. reflexivity. Qed.

Lemma exported_ls_slope_in_LOS (sc : Scene) (B : R) (s1 : S1Image) (l : R) :
  image_s1 sc = Some s1 ->
  look_dir s1 = Some l ->
  exported sc B "ls_slope_in_LOS_T019D" = Some (Done (ls_alpha sc s1 l)).
Proof.
  intros H Hl. unfold exported, exports, toDrive. rewrite H. cbn.
  rewrite Hl. reflexivity.
Qed.

Lemma exported_ls_modelled_coh_geom (sc : Scene) (B : R) (s1 : S1Image) (l : R) :
  image_s1 sc = Some s1 ->
  look_dir s1 = Some l ->
  exported sc B "ls_modelled_coh_geom_T019D"
  = Some (Done (ls_modelled_coh_geom sc s1 l B)).
Proof.
  intros H Hl. unfold exported, exports, toDrive. rewrite H. cbn.
  rewrite Hl. reflexivity.
Qed.

Lemma exported_without_look_dir (sc : Scene) (B : R) (s1 : S1Image) :
  image_s1 sc = Some s1 ->
  look_dir s1 = None ->
  exported sc B "ls_slope_in_LOS_T019D" = Some (Raised null_look_dir)
  /\ exported sc B "ls_modelled_coh_geom_T019D" = Some (Raised null_look_dir).
Proof.
  intros H Hl. unfold exported, exports, toDrive. rewrite H. cbn.
  rewrite Hl. split; reflexivity.
Qed.

Lemma exports_without_image (sc : Scene) (B : R) :
  image_s1 sc = None ->
  Forall (fun t => collection t = Raised null_image) (exports sc B).
Proof.
  intros H. unfold exports, toDrive. rewrite H. cbn.
  repeat constructor.
Qed.

(** The median over a one-pixel polygon is the value of that pixel. *)
Lemma reduceRegions_one_pixel (img : image) (id : string) (p : Pixel) :
  reduceRegions img [mkFeature id [p]] Reducer.median = [mkRow id (img p)].
Proof.
  unfold reduceRegions, valid_values, Reducer.median. cbn.
  destruct (img p); reflexivity.
Qed.

(** ** Clamping *)

Lemma theta_iRad_loc_grazing :
  theta_iRad_loc scene_grazing (s1_uniform 40 100) 100 pixel0
  = Some ((40 - 79 / 2) * (PI / 180)).
Proof. apply theta_iRad_loc_facing; try reflexivity. lra. Qed.

Lemma tan_grazing : 0 < tan ((40 - 79 / 2) * (PI / 180)) < 113 / 10000.
Proof.
  apply tan_small.
  pose proof PI_RGT_0. pose proof PI_4. lra.
Qed.

(** C1, as stated, fails: a 39.5 degree slope facing the sensor at 40
    degrees of incidence gets, with the 150 m baseline of the script, a
    negative coherence, and that negative number is what the exported table
    holds. *)
Lemma C1_counterexample :
  exists v,
    coh_geom scene_grazing (s1_uniform 40 100) 100 Bperp_example pixel0 = Some v
    /\ exported scene_grazing Bperp_example "ls_modelled_coh_geom_T019D"
       = Some (Done [mkRow "landslide1" (Some v)])
    /\ v < 0
    /\ ~ (0 <= v <= 1).
Proof.
  pose proof theta_iRad_loc_grazing as Ht.
  pose proof (coh_geom_at _ _ _ Bperp_example _ _ Ht) as Hv.
  eexists. split; [exact Hv |]. split.
  - rewrite (exported_ls_modelled_coh_geom _ _ (s1_uniform 40 100) 100);
      [| apply image_s1_uniform | apply look_dir_uniform].
    unfold ls_modelled_coh_geom.
    change (landslides scene_grazing) with [mkFeature "landslide1" [pixel0]].
    rewrite reduceRegions_one_pixel, Hv. reflexivity.
  - assert (Hneg : 1 - c * Bperp_example
                       / (lambda_value * r_value
                          * Rabs (tan ((40 - 79 / 2) * (PI / 180)))
                          * Bw_value) < 0).
    { pose proof tan_grazing as [Hlo Hhi].
      rewrite (Rabs_right (tan _)) by lra.
      set (T := tan ((40 - 79 / 2) * (PI / 180))) in *.
      assert (1 < c * Bperp_example / (lambda_value * r_value * T * Bw_value));
        [| lra].
      apply quotient_above_one;
        unfold c, Bperp_example, lambda_value, r_value, Bw_value; nra. }
    split; [exact Hneg | lra].
Qed.

(** C1, amended: the coherence raster holds the unclamped value of line 160.
    For a non-negative baseline and a non-zero tangent that value is at most
    1, and it is non-negative exactly when c * Bperp does not exceed
    lambda * r * Bw * |tan(theta_i,loc)|; below that it is reported
    negative. *)
Theorem C1_coherence_is_not_clamped :
  forall (sc : Scene) (s1 : S1Image) (look Bperp : R) (p : Pixel) (t : R),
    theta_iRad_loc sc s1 look p = Some t ->
    tan t <> 0 ->
    0 <= Bperp ->
    exists v, coh_geom sc s1 look Bperp p = Some v
              /\ v = spec_coherence c Bperp lambda_value r_value Bw_value t
              /\ v <= 1
              /\ (0 <= v <->
                  c * Bperp <= lambda_value * r_value * Bw_value * Rabs (tan t)).
Proof.
  intros sc s1 look Bperp p t Ht Htan HB.
  rewrite (coh_geom_at _ _ _ _ _ _ Ht).
  eexists. split; [reflexivity |].
  replace (lambda_value * r_value * Rabs (tan t) * Bw_value)
    with (lambda_value * r_value * Bw_value * Rabs (tan t)) by ring.
  split; [reflexivity |].
  assert (Hd : 0 < lambda_value * r_value * Bw_value * Rabs (tan t)).
  { pose proof (denominator_pos t Htan). lra. }
  set (D := lambda_value * r_value * Bw_value * Rabs (tan t)) in *.
  pose proof (Rinv_0_lt_compat _ Hd) as Hinv.
  assert (Hone : D * / D = 1) by (field; lra).
  pose proof c_pos as Hc.
  assert (HN : 0 <= c * Bperp) by nra.
  unfold Rdiv. set (k := / D) in *.
  split; [nra |].
  split; intros H; nra.
Qed.

Lemma C1_witness :
  exists v, coh_geom scene_flat45 (s1_uniform 45 100) 100 150 pixel0 = Some v
            /\ v <= 1.
Proof.
  destruct (C1_coherence_is_not_clamped
              scene_flat45 (s1_uniform 45 100) 100 150 pixel0
              ((45 - 0) * (PI / 180)))
    as (v & Hv & _ & Hle & _).
  - exact theta_iRad_loc_flat45.
  - exact tan_flat45.
  - lra.
  - exists v. split; assumption.
Defined.

(** ** Which raster each exported table comes from *)

(** C2: evaluated on a one-polygon scene (slope 30, aspect 100, incidence 40
    degrees), the task described as [ls_aspects] delivers the median of the
    slope raster, 30 degrees in radians, where [ls_aspect] holds 100 degrees
    in radians; and the task described as
    [ls_theta_alpha_difference_T019D] delivers the median incidence angle,
    40 degrees, where [ls_theta_alpha_difference] holds 10 degrees.  The two
    tasks are handed [ls_slope] and [ls_theta] instead of the tables computed
    just above them. *)
Theorem C2_exports_hand_over_other_tables :
  exported scene_facing Bperp_example "ls_aspects"
  = Some (Done [mkRow "landslide1" (Some (30 * (PI / 180)))])
  /\ ls_aspect scene_facing (s1_uniform 40 100)
     = [mkRow "landslide1" (Some (100 * (PI / 180)))]
  /\ exported scene_facing Bperp_example "ls_theta_alpha_difference_T019D"
     = Some (Done [mkRow "landslide1" (Some (40 * (PI / 180)))])
  /\ ls_theta_alpha_difference scene_facing (s1_uniform 40 100) 100
     = [mkRow "landslide1" (Some (10 * (PI / 180)))]
  /\ 30 * (PI / 180) <> 100 * (PI / 180)
  /\ 40 * (PI / 180) <> 10 * (PI / 180).
Proof.
  split; [| split; [| split; [| split; [| split]]]].
  - rewrite (exported_ls_aspects _ _ (s1_uniform 40 100)); reflexivity.
  - reflexivity.
  - rewrite (exported_ls_theta_alpha_difference _ _ (s1_uniform 40 100));
      reflexivity.
  - unfold ls_theta_alpha_difference.
    change (landslides scene_facing) with [mkFeature "landslide1" [pixel0]].
    rewrite reduceRegions_one_pixel.
    rewrite (theta_iRad_loc_facing _ _ _ _ 40 30); try reflexivity; try lra.
    do 3 f_equal. lra.
  - pose proof PI_RGT_0. lra.
  - pose proof PI_RGT_0. lra.
Qed.

(** ** A collection that the area of interest does not touch *)

Lemma filterBounds_disjoint (g : Geometry) (coll : list S1Image) :
  (forall i, In i coll -> intersects (geometry i) g = false) ->
  filterBounds g coll = [].
Proof.
  intros H. unfold filterBounds.
  induction coll as [| i rest IH]; [reflexivity |].
  cbn. rewrite (H i (or_introl eq_refl)).
  apply IH. intros j Hj. apply H. now right.
Qed.

(** C8, as stated, fails: with an area of interest that no image touches,
    every export task fails, but none of them with a [GeometryError]; the
    failure is the one of a null image. *)
Lemma C8_counterexample :
  intersects (geometry (s1_uniform 40 100)) (AOI scene_no_overlap) = false
  /\ Forall (fun t => collection t = Raised null_image) (script scene_no_overlap)
  /\ Forall (fun t => collection t <> Raised "GeometryError")
            (script scene_no_overlap).
Proof.
  split; [reflexivity |].
  split.
  - apply exports_without_image. reflexivity.
  - unfold script, exports, toDrive. cbn.
    repeat constructor; cbn; discriminate.
Qed.

(** C8, amended: when no image of the collection intersects the area of
    interest, [image_s1] is null and every export task fails on it, so no
    table is delivered and no look direction, 0 or other, is put in its
    place; when the look-direction reduction finds no valid pixel, the two
    tasks that depend on the look direction fail on the null number.  The
    failure is the platform's, the script names no error of its own. *)
Theorem C8_missing_look_direction_fails :
  forall (sc : Scene) (B : R),
    ((forall i, In i (S1_GRD sc) ->
                intersects (geometry i) (AOI sc) = false) ->
     image_s1 sc = None
     /\ Forall (fun t => collection t = Raised null_image) (exports sc B))
    /\ (forall s1, image_s1 sc = Some s1 ->
                   look_dir s1 = None ->
                   exported sc B "ls_slope_in_LOS_T019D"
                   = Some (Raised null_look_dir)
                   /\ exported sc B "ls_modelled_coh_geom_T019D"
                      = Some (Raised null_look_dir)).
Proof.
  intros sc B. split.
  - intros Hdisjoint.
    assert (Hnull : image_s1 sc = None).
    { unfold image_s1. now rewrite filterBounds_disjoint. }
    split; [exact Hnull |].
    now apply exports_without_image.
  - intros s1 Himg Hlook. exact (exported_without_look_dir sc B s1 Himg Hlook).
Qed.

Lemma C8_witness :
  (image_s1 scene_no_overlap = None
   /\ Forall (fun t => collection t = Raised null_image)
             (exports scene_no_overlap Bperp_example))
  /\ exported scene_no_aspect Bperp_example "ls_slope_in_LOS_T019D"
     = Some (Raised null_look_dir)
  /\ exported scene_no_aspect Bperp_example "ls_modelled_coh_geom_T019D"
     = Some (Raised null_look_dir).
Proof.
  split.
  - apply (C8_missing_look_direction_fails scene_no_overlap Bperp_example).
    intros i [<- | []]. reflexivity.
  - apply (C8_missing_look_direction_fails scene_no_aspect Bperp_example)
      with (s1 := s1_no_aspect); reflexivity.
Defined.

(** ** Zonal median *)

Lemma insert_perm (x : R) (l : list R) : Permutation (x :: l) (insert x l).
Proof.
  induction l as [| y t IH]; cbn.
  - apply Permutation_refl.
  - destruct (Rle_dec x y).
    + apply Permutation_refl.
    + apply Permutation_trans with (y :: x :: t).
      * apply perm_swap.
      * apply perm_skip. exact IH.
Qed.

Lemma sort_perm (l : list R) : Permutation l (sort l).
Proof.
  induction l as [| x t IH]; cbn.
  - apply perm_nil.
  - apply Permutation_trans with (x :: sort t).
    + apply perm_skip. exact IH.
    + apply insert_perm.
Qed.

Lemma insert_sorted (x : R) (l : list R) :
  Sorted Rle l -> Sorted Rle (insert x l).
Proof.
  induction l as [| y t IH]; cbn; intros Hs.
  - repeat constructor.
  - destruct (Rle_dec x y) as [Hle | Hgt].
    + constructor; [exact Hs | constructor; exact Hle].
    + inversion Hs as [| ? ? Ht Hhd]; subst.
      constructor; [now apply IH |].
      destruct t as [| z t']; cbn.
      * constructor. lra.
      * destruct (Rle_dec x z); constructor; try lra.
        inversion Hhd; subst. assumption.
Qed.

Lemma sort_sorted (l : list R) : Sorted Rle (sort l).
Proof.
  induction l as [| x t IH]; cbn.
  - constructor.
  - now apply insert_sorted.
Qed.

Lemma valid_values_in (img : image) (g : Geometry) (v : R) :
  In v (valid_values img g) <-> exists p, In p g /\ img p = Some v.
Proof.
  unfold valid_values. rewrite in_flat_map. split.
  - intros (p & Hp & Hv). exists p. split; [exact Hp |].
    destruct (img p) as [w |]; cbn in Hv; [| contradiction].
    destruct Hv as [-> | []]. reflexivity.
  - intros (p & Hp & Hv). exists p. split; [exact Hp |].
    rewrite Hv. now left.
Qed.

Lemma valid_values_masked (img : image) (g : Geometry) :
  (forall p, In p g -> img p = None) -> valid_values img g = [].
Proof.
  intros H. unfold valid_values.
  induction g as [| p t IH]; [reflexivity |].
  cbn. rewrite (H p (or_introl eq_refl)). cbn.
  apply IH. intros q Hq. apply H. now right.
Qed.

Lemma median_nil : Reducer.median [] = None.
Proof. reflexivity. Qed.

Lemma median_constant (l : list R) (C : R) :
  l <> [] ->
  (forall v, In v l -> v = C) ->
  Reducer.median l = Some C.
Proof.
  intros Hne Hall.
  assert (Hsorted : forall v, In v (sort l) -> v = C).
  { intros v Hv. apply Hall.
    apply Permutation_in with (sort l); [| exact Hv].
    apply Permutation_sym, sort_perm. }
  unfold Reducer.median.
  destruct (sort l) as [| x t] eqn:Hs.
  - exfalso. apply Hne.
    apply Permutation_nil. rewrite <- Hs. apply Permutation_sym, sort_perm.
  - set (s := x :: t) in *.
    set (n := List.length s).
    assert (Hpos : (0 < n)%nat) by (unfold n, s; cbn; lia).
    assert (Hmid : nth (n / 2) s 0 = C).
    { apply Hsorted, nth_In. fold n. apply Nat.div_lt; lia. }
    assert (Hlow : nth (n / 2 - 1) s 0 = C).
    { apply Hsorted, nth_In. fold n.
      pose proof (Nat.div_lt n 2 Hpos). lia. }
    rewrite Hmid, Hlow.
    destruct (Nat.even n); f_equal; lra.
Qed.

(** C6: for every raster and every polygon of the collection, the row of the
    polygon carries the median of the unmasked pixels only.  If every
    unmasked pixel of the footprint holds C and there is at least one, the
    statistic is exactly C; if the footprint has no unmasked pixel the
    statistic is absent, not 0 or any other number. *)
Theorem C6_zonal_median_skips_masked_pixels :
  forall (img : image) (coll : list Feature) (i : nat) (f : Feature),
    nth_error coll i = Some f ->
    (forall C,
        (forall p v, In p (geometry_of f) -> img p = Some v -> v = C) ->
        (exists p, In p (geometry_of f) /\ img p <> None) ->
        nth_error (reduceRegions img coll Reducer.median) i
        = Some (mkRow (object_id f) (Some C)))
    /\ ((forall p, In p (geometry_of f) -> img p = None) ->
        nth_error (reduceRegions img coll Reducer.median) i
        = Some (mkRow (object_id f) None)
        /\ forall d, nth_error (reduceRegions img coll Reducer.median) i
                     <> Some (mkRow (object_id f) (Some d))).
Proof.
  intros img coll i f Hf.
  assert (Hrow : nth_error (reduceRegions img coll Reducer.median) i
                 = Some (mkRow (object_id f)
                           (Reducer.median (valid_values img (geometry_of f))))).
  { unfold reduceRegions. rewrite nth_error_map, Hf. reflexivity. }
  split.
  - intros C Hconst (p & Hp & Hvalid).
    rewrite Hrow. do 2 f_equal.
    apply median_constant.
    + destruct (img p) as [v |] eqn:Hv; [| congruence].
      intros Hnil.
      assert (Hin : In v (valid_values img (geometry_of f))).
      { apply valid_values_in. exists p. auto. }
      rewrite Hnil in Hin. exact Hin.
    + intros v Hv. apply valid_values_in in Hv.
      destruct Hv as (q & Hq & Hqv). eapply Hconst; eassumption.
  - intros Hmasked.
    rewrite Hrow, (valid_values_masked _ _ Hmasked), median_nil.
    split; [reflexivity |].
    intros d. discriminate.
Qed.

Lemma C6_witness :
  nth_error (reduceRegions (theta_iRad (s1_uniform 40 100))
               [polygon_uncovered; polygon_partly_covered] Reducer.median) 1
  = Some (mkRow "landslide2" (Some (40 * (PI / 180))))
  /\ nth_error (reduceRegions (theta_iRad (s1_uniform 40 100))
                  [polygon_uncovered; polygon_partly_covered] Reducer.median) 0
     = Some (mkRow "landslide3" None).
Proof.
  split.
  - apply (C6_zonal_median_skips_masked_pixels
             (theta_iRad (s1_uniform 40 100))
             [polygon_uncovered; polygon_partly_covered] 1
             polygon_partly_covered eq_refl).
    + intros p v [<- | [<- | [<- | []]]]; cbn; intros Hv;
        try discriminate.
      now inversion Hv.
    + exists pixel0. split; [cbn; auto |]. cbn. discriminate.
  - apply (C6_zonal_median_skips_masked_pixels
             (theta_iRad (s1_uniform 40 100))
             [polygon_uncovered; polygon_partly_covered] 0
             polygon_uncovered eq_refl).
    intros p [<- | [<- | []]]; reflexivity.
Defined.

(** * Properties beyond the claims *)

(** ** Choice of the Sentinel-1 image (lines 38-44) *)

Lemma filter_chain (sc : Scene) :
  filter_mode "IW"
    (filter_orbit 19
       (filterDate 20180401 20180501 (filterBounds (AOI sc) (S1_GRD sc))))
  = filter (passes_filters sc) (S1_GRD sc).
Proof.
  unfold filter_mode, filter_orbit, filterDate, filterBounds, passes_filters.
  induction (S1_GRD sc) as [| i rest IH]; [reflexivity |].
  cbn [filter].
  destruct (intersects (geometry i) (AOI sc)); cbn [filter andb];
    [| exact IH].
  destruct (Z.leb 20180401 (acquired i) && Z.ltb (acquired i) 20180501)%bool;
    cbn [filter andb]; [| exact IH].
  destruct (Z.eqb (relativeOrbitNumber_start i) 19); cbn [filter andb];
    [| exact IH].
  destruct (String.eqb (instrumentMode i) "IW"); cbn [filter andb];
    [| exact IH].
  now rewrite IH.
Qed.

Lemma image_s1_first_match (sc : Scene) :
  image_s1 sc = hd_error (filter (passes_filters sc) (S1_GRD sc)).
Proof. unfold image_s1, first. now rewrite filter_chain. Qed.

Lemma passes_filters_true (sc : Scene) (i : S1Image) :
  passes_filters sc i = true <->
  intersects (geometry i) (AOI sc) = true
  /\ (20180401 <= acquired i < 20180501)%Z
  /\ relativeOrbitNumber_start i = 19%Z
  /\ instrumentMode i = "IW".
Proof.
  unfold passes_filters.
  rewrite !andb_true_iff, Z.leb_le, Z.ltb_lt, Z.eqb_eq, String.eqb_eq.
  tauto.
Qed.

(** X1: the image the script works on belongs to the collection, intersects
    the area of interest, was acquired in April 2018, and has relative orbit
    19 and mode IW. *)
Theorem X1_image_s1_passes_every_filter :
  forall (sc : Scene) (s1 : S1Image),
    image_s1 sc = Some s1 ->
    In s1 (S1_GRD sc)
    /\ intersects (geometry s1) (AOI sc) = true
    /\ (20180401 <= acquired s1 < 20180501)%Z
    /\ relativeOrbitNumber_start s1 = 19%Z
    /\ instrumentMode s1 = "IW".
Proof.
  intros sc s1 H. rewrite image_s1_first_match in H.
  assert (Hin : In s1 (filter (passes_filters sc) (S1_GRD sc))).
  { destruct (filter (passes_filters sc) (S1_GRD sc)) as [| x t];
      [discriminate |].
    inversion H. now left. }
  apply filter_In in Hin. destruct Hin as [Hin Hpass].
  split; [exact Hin |]. now apply passes_filters_true.
Qed.

Lemma X1_witness :
  In (s1_uniform 40 100) (S1_GRD scene_facing)
  /\ intersects (geometry (s1_uniform 40 100)) (AOI scene_facing) = true
  /\ (20180401 <= acquired (s1_uniform 40 100) < 20180501)%Z
  /\ relativeOrbitNumber_start (s1_uniform 40 100) = 19%Z
  /\ instrumentMode (s1_uniform 40 100) = "IW".
Proof.
  apply (X1_image_s1_passes_every_filter scene_facing (s1_uniform 40 100)).
  reflexivity.
Defined.

(** X2: the image chosen is the first of the collection that passes the four
    filters, whatever precedes it; and there is no image exactly when no
    member of the collection passes them all. *)
Theorem X2_image_s1_is_first_match :
  forall (sc : Scene),
    (forall pre s1 post,
        S1_GRD sc = pre ++ s1 :: post ->
        (forall i, In i pre -> passes_filters sc i = false) ->
        passes_filters sc s1 = true ->
        image_s1 sc = Some s1)
    /\ (image_s1 sc = None <->
        forall i, In i (S1_GRD sc) -> passes_filters sc i = false).
Proof.
  intros sc. rewrite image_s1_first_match. split.
  - intros pre s1 post -> Hpre Hs1.
    induction pre as [| x pre IH]; cbn [app filter].
    + now rewrite Hs1.
    + rewrite (Hpre x (or_introl eq_refl)).
      apply IH. intros i Hi. apply Hpre. now right.
  - induction (S1_GRD sc) as [| x rest IH]; cbn [filter].
    + split; [intros _ i [] | reflexivity].
    + destruct (passes_filters sc x) eqn:Hx; cbn [hd_error].
      * split; [discriminate |].
        intros H. rewrite (H x (or_introl eq_refl)) in Hx. discriminate.
      * rewrite IH. split.
        -- intros H i [<- | Hi]; [exact Hx | now apply H].
        -- intros H i Hi. apply H. now right.
Qed.

Lemma X2_witness :
  image_s1 scene_two_images = Some (s1_uniform 40 100).
Proof.
  apply (X2_image_s1_is_first_match scene_two_images)
    with (pre := [s1_other_orbit]) (post := []).
  - reflexivity.
  - intros i [<- | []]. reflexivity.
  - reflexivity.
Defined.

(** ** No-data propagation (lines 55-76 and 160) *)

Lemma alpha_rRad_formula (sc : Scene) (s1 : S1Image) (look : R) (p : Pixel) :
  alpha_rRad sc s1 look p
  = if contains (geometry s1) p
    then match slopeReprojected sc p, aspectReprojected sc p with
         | Some sl, Some a =>
             Some (atan (tan (sl * (PI / 180))
                         * cos (look * (PI / 180) - a * (PI / 180))))
         | _, _ => None
         end
    else None.
Proof.
  unfold alpha_rRad, phi_rRad, phi_iRad, phi_sRad, alpha_sRad, geom_s1;
    unfold_ops.
  destruct (contains (geometry s1) p); [| reflexivity].
  destruct (slopeReprojected sc p), (aspectReprojected sc p); reflexivity.
Qed.

Lemma theta_iRad_loc_formula (sc : Scene) (s1 : S1Image) (look : R) (p : Pixel) :
  theta_iRad_loc sc s1 look p
  = match theta_iRad s1 p, alpha_rRad sc s1 look p with
    | Some ti, Some ar => Some (ti - ar)
    | _, _ => None
    end.
Proof. reflexivity. Qed.

Lemma theta_iRad_formula (s1 : S1Image) (p : Pixel) :
  theta_iRad s1 p
  = if contains (geometry s1) p
    then match angle s1 p with
         | Some a => Some (a * (PI / 180))
         | None => None
         end
    else None.
Proof.
  unfold theta_iRad, geom_s1; unfold_ops.
  destruct (contains (geometry s1) p); [| reflexivity].
  destruct (angle s1 p); reflexivity.
Qed.

(** X3: the local incidence angle and the coherence are defined at exactly
    the pixels that lie inside the image footprint and carry an incidence
    angle, a slope and an aspect; the look direction and the baseline play no
    part in it. *)
Theorem X3_coherence_defined_where_inputs_are :
  forall (sc : Scene) (s1 : S1Image) (look Bperp : R) (p : Pixel),
    (theta_iRad_loc sc s1 look p <> None <->
     contains (geometry s1) p = true
     /\ angle s1 p <> None
     /\ slopeReprojected sc p <> None
     /\ aspectReprojected sc p <> None)
    /\ (coh_geom sc s1 look Bperp p <> None <->
        theta_iRad_loc sc s1 look p <> None).
Proof.
  intros sc s1 look Bperp p. split.
  - rewrite theta_iRad_loc_formula, theta_iRad_formula, alpha_rRad_formula.
    destruct (contains (geometry s1) p), (angle s1 p),
      (slopeReprojected sc p), (aspectReprojected sc p);
      split; intros H; try (exfalso; apply H; reflexivity);
      try (destruct H as (H1 & H2 & H3 & H4); congruence);
      repeat split; discriminate.
  - destruct (theta_iRad_loc sc s1 look p) as [t |] eqn:Ht.
    + rewrite (coh_geom_at _ _ _ _ _ _ Ht). split; discriminate.
    + rewrite (coh_geom_masked _ _ _ _ _ Ht). tauto.
Qed.

(** ** The look direction enters through the relative aspect only
       (lines 56-69) *)

Lemma cos_turn (x : R) : cos (x + 2 * PI) = cos x.
Proof. rewrite cos_plus, cos_2PI, sin_2PI. ring. Qed.

(** X4: turning the look direction and every terrain aspect by the same
    angle leaves the range-direction slope steepness unchanged. *)
Theorem X4_range_slope_depends_on_relative_aspect :
  forall (sc sc' : Scene) (s1 : S1Image) (look d : R) (p : Pixel),
    slopeReprojected sc' p = slopeReprojected sc p ->
    aspectReprojected sc' p
    = option_map (fun a => a + d) (aspectReprojected sc p) ->
    alpha_rRad sc' s1 (look + d) p = alpha_rRad sc s1 look p
    /\ theta_iRad_loc sc' s1 (look + d) p = theta_iRad_loc sc s1 look p.
Proof.
  intros sc sc' s1 look d p Hs Ha.
  assert (Halpha : alpha_rRad sc' s1 (look + d) p = alpha_rRad sc s1 look p).
  { rewrite !alpha_rRad_formula, Hs, Ha.
    destruct (contains (geometry s1) p); [| reflexivity].
    destruct (slopeReprojected sc p) as [sl |]; [| reflexivity].
    destruct (aspectReprojected sc p) as [a |]; [| reflexivity].
    cbn [option_map]. do 4 f_equal. ring. }
  split; [exact Halpha |].
  now rewrite !theta_iRad_loc_formula, Halpha.
Qed.

Lemma X4_witness :
  alpha_rRad scene_rotated (s1_uniform 40 100) (100 + 10) pixel0
  = alpha_rRad scene_facing (s1_uniform 40 100) 100 pixel0
  /\ theta_iRad_loc scene_rotated (s1_uniform 40 100) (100 + 10) pixel0
     = theta_iRad_loc scene_facing (s1_uniform 40 100) 100 pixel0.
Proof.
  apply (X4_range_slope_depends_on_relative_aspect
           scene_facing scene_rotated (s1_uniform 40 100) 100 10 pixel0);
    reflexivity.
Defined.

(** X5: a look direction given a full turn further (360 degrees more) gives
    the same range-direction slope, local incidence angle and coherence; the
    script needs no wrapping of bearings. *)
Theorem X5_full_turn_changes_nothing :
  forall (sc : Scene) (s1 : S1Image) (look Bperp : R) (p : Pixel),
    alpha_rRad sc s1 (look + 360) p = alpha_rRad sc s1 look p
    /\ theta_iRad_loc sc s1 (look + 360) p = theta_iRad_loc sc s1 look p
    /\ coh_geom sc s1 (look + 360) Bperp p = coh_geom sc s1 look Bperp p.
Proof.
  intros sc s1 look Bperp p.
  assert (Halpha : alpha_rRad sc s1 (look + 360) p = alpha_rRad sc s1 look p).
  { rewrite !alpha_rRad_formula.
    destruct (contains (geometry s1) p); [| reflexivity].
    destruct (slopeReprojected sc p) as [sl |]; [| reflexivity].
    destruct (aspectReprojected sc p) as [a |]; [| reflexivity].
    do 3 f_equal.
    replace ((look + 360) * (PI / 180) - a * (PI / 180))
      with (look * (PI / 180) - a * (PI / 180) + 2 * PI) by field.
    apply cos_turn. }
  assert (Hloc : theta_iRad_loc sc s1 (look + 360) p
                 = theta_iRad_loc sc s1 look p).
  { now rewrite !theta_iRad_loc_formula, Halpha. }
  split; [exact Halpha | split; [exact Hloc |]].
  destruct (theta_iRad_loc sc s1 look p) as [t |] eqn:Ht.
  - now rewrite (coh_geom_at _ _ _ _ _ _ Ht), (coh_geom_at _ _ _ _ _ _ Hloc).
  - now rewrite (coh_geom_masked _ _ _ _ _ Ht), (coh_geom_masked _ _ _ _ _ Hloc).
Qed.

(** X6: seen from the opposite side (look direction 180 degrees further) the
    range-direction slope steepness changes sign, so the local incidence
    angles of the two views add up to twice the incidence angle. *)
Theorem X6_opposite_look_negates_range_slope :
  forall (sc : Scene) (s1 : S1Image) (look : R) (p : Pixel),
    alpha_rRad sc s1 (look + 180) p
    = option_map Ropp (alpha_rRad sc s1 look p)
    /\ (forall t t' ti,
           theta_iRad s1 p = Some ti ->
           theta_iRad_loc sc s1 look p = Some t ->
           theta_iRad_loc sc s1 (look + 180) p = Some t' ->
           t + t' = 2 * ti).
Proof.
  intros sc s1 look p.
  assert (Halpha : alpha_rRad sc s1 (look + 180) p
                   = option_map Ropp (alpha_rRad sc s1 look p)).
  { rewrite !alpha_rRad_formula.
    destruct (contains (geometry s1) p); [| reflexivity].
    destruct (slopeReprojected sc p) as [sl |]; [| reflexivity].
    destruct (aspectReprojected sc p) as [a |]; [| reflexivity].
    cbn [option_map]. f_equal.
    replace ((look + 180) * (PI / 180) - a * (PI / 180))
      with (look * (PI / 180) - a * (PI / 180) + PI) by field.
    rewrite neg_cos, <- atan_opp. f_equal. ring. }
  split; [exact Halpha |].
  intros t t' ti Hti Ht Ht'.
  rewrite theta_iRad_loc_formula, Hti in Ht, Ht'.
  rewrite Halpha in Ht'.
  destruct (alpha_rRad sc s1 look p) as [ar |]; [| discriminate].
  cbn [option_map] in Ht'. inversion Ht. inversion Ht'. lra.
Qed.

Lemma X6_witness :
  10 * (PI / 180) + (40 * (PI / 180) - - (30 * (PI / 180)))
  = 2 * (40 * (PI / 180)).
Proof.
  pose proof (X6_opposite_look_negates_range_slope
                scene_facing (s1_uniform 40 100) 100 pixel0) as [Hopp Hsum].
  assert (H30 : alpha_rRad scene_facing (s1_uniform 40 100) 100 pixel0
                = Some (30 * (PI / 180))).
  { apply alpha_rRad_facing; try reflexivity. lra. }
  apply (Hsum _ _ (40 * (PI / 180))).
  - reflexivity.
  - replace (10 * (PI / 180)) with ((40 - 30) * (PI / 180)) by ring.
    apply theta_iRad_loc_facing; try reflexivity. lra.
  - rewrite theta_iRad_loc_formula, Hopp, H30. reflexivity.
Defined.

(** ** Sign and size of the range-direction slope (line 69) *)

Lemma range_slope_between (s f : R) :
  0 <= s < PI / 2 -> - s <= atan (tan s * cos f) <= s.
Proof.
  intros Hrange.
  destruct (projected_tangent_bound s f Hrange) as [Hlo Hhi].
  assert (Hinv : atan (tan s) = s).
  { apply atan_tan. pose proof PI_RGT_0. lra. }
  split.
  - rewrite <- Hinv at 1. rewrite <- atan_opp. now apply atan_le.
  - rewrite <- Hinv at 2. now apply atan_le.
Qed.

Lemma range_slope_magnitude (s f : R) :
  0 <= s < PI / 2 -> Rabs (atan (tan s * cos f)) <= s.
Proof. intros Hrange. now apply Rabs_le, range_slope_between. Qed.

(** X7: on flat ground (slope 0) the range-direction slope steepness is 0
    and the local incidence angle is the incidence angle, whatever the
    aspect and the look direction. *)
Theorem X7_flat_ground_keeps_incidence_angle :
  forall (sc : Scene) (s1 : S1Image) (look : R) (p : Pixel) (a : R),
    contains (geometry s1) p = true ->
    slopeReprojected sc p = Some 0 ->
    aspectReprojected sc p = Some a ->
    alpha_rRad sc s1 look p = Some 0
    /\ theta_iRad_loc sc s1 look p = theta_iRad s1 p.
Proof.
  intros sc s1 look p a Hin Hs Ha.
  assert (Halpha : alpha_rRad sc s1 look p = Some 0).
  { rewrite alpha_rRad_formula, Hin, Hs, Ha.
    now rewrite Rmult_0_l, tan_0, Rmult_0_l, atan_0. }
  split; [exact Halpha |].
  rewrite theta_iRad_loc_formula, Halpha.
  destruct (theta_iRad s1 p); [f_equal; lra | reflexivity].
Qed.

Lemma X7_witness :
  alpha_rRad scene_flat45 (s1_uniform 45 100) 260 pixel0 = Some 0
  /\ theta_iRad_loc scene_flat45 (s1_uniform 45 100) 260 pixel0
     = theta_iRad (s1_uniform 45 100) pixel0.
Proof.
  apply (X7_flat_ground_keeps_incidence_angle
           scene_flat45 (s1_uniform 45 100) 260 pixel0 100); reflexivity.
Defined.



(** X9: below 90 degrees of slope the local incidence angle differs from the
    incidence angle by at most the slope. *)
Theorem X9_local_incidence_within_slope_of_incidence :
  forall (sc : Scene) (s1 : S1Image) (look : R) (p : Pixel) (s ti t : R),
    alpha_sRad sc s1 p = Some s ->
    0 <= s < PI / 2 ->
    theta_iRad s1 p = Some ti ->
    theta_iRad_loc sc s1 look p = Some t ->
    Rabs (t - ti) <= s.
Proof.
  intros sc s1 look p s ti t Hs Hrange Hti Ht.
  apply theta_iRad_loc_at in Ht.
  destruct Ht as (ti' & ar & Hti' & Har & ->).
  assert (ti' = ti) by congruence. subst ti'.
  apply alpha_rRad_at in Har.
  destruct Har as (s' & f & Hs' & _ & ->).
  assert (s' = s) by congruence. subst s'.
  replace (ti - atan (tan s * cos f) - ti) with (- atan (tan s * cos f))
    by ring.
  rewrite Rabs_Ropp. now apply range_slope_magnitude.
Qed.

Lemma X9_witness :
  Rabs ((40 - 30) * (PI / 180) - 40 * (PI / 180)) <= 30 * (PI / 180).
Proof.
  apply (X9_local_incidence_within_slope_of_incidence
           scene_facing (s1_uniform 40 100) 100 pixel0).
  - reflexivity.
  - pose proof PI_RGT_0. lra.
  - reflexivity.
  - apply theta_iRad_loc_facing; try reflexivity. lra.
Defined.

(** ** Shape of the coherence model (lines 75 and 160) *)

Lemma theta_iRad_loc_two_pixels (p : Pixel) (ang : R) :
  contains (geometry s1_two_pixels) p = true ->
  angle s1_two_pixels p = Some ang ->
  theta_iRad_loc scene_two_pixels s1_two_pixels 100 p
  = Some ((ang - 0) * (PI / 180)).
Proof.
  intros Hin Hang.
  apply theta_iRad_loc_facing; try assumption; try reflexivity. lra.
Qed.

(** X10: for a positive baseline, of two pixels whose local incidence angles
    lie between 0 and 90 degrees the one with the smaller angle has the
    smaller coherence: decorrelation grows as the local incidence angle
    approaches zero. *)
Theorem X10_coherence_grows_with_local_incidence :
  forall (sc : Scene) (s1 : S1Image) (look Bperp : R) (p q : Pixel) (tp tq : R),
    0 < Bperp ->
    theta_iRad_loc sc s1 look p = Some tp ->
    theta_iRad_loc sc s1 look q = Some tq ->
    0 < tp -> tp < tq -> tq < PI / 2 ->
    exists vp vq, coh_geom sc s1 look Bperp p = Some vp
                  /\ coh_geom sc s1 look Bperp q = Some vq
                  /\ vp < vq.
Proof.
  intros sc s1 look Bperp p q tp tq HB Hp Hq H0 Hlt Hhi.
  rewrite (coh_geom_at _ _ _ _ _ _ Hp), (coh_geom_at _ _ _ _ _ _ Hq).
  eexists. eexists. split; [reflexivity | split; [reflexivity |]].
  assert (Htp : 0 < tan tp) by (apply tan_gt_0; lra).
  assert (Htan : tan tp < tan tq).
  { pose proof PI_RGT_0. apply tan_increasing; lra. }
  rewrite !Rabs_right by lra.
  assert (Hdp : 0 < lambda_value * r_value * tan tp * Bw_value)
    by (unfold lambda_value, r_value, Bw_value; nra).
  assert (Hdq : lambda_value * r_value * tan tp * Bw_value
                < lambda_value * r_value * tan tq * Bw_value)
    by (unfold lambda_value, r_value, Bw_value; nra).
  pose proof (Rinv_0_lt_contravar _ _ Hdp Hdq) as Hinv.
  pose proof c_pos as Hc.
  assert (HN : 0 < c * Bperp) by nra.
  unfold Rdiv.
  apply (Rmult_lt_compat_l _ _ _ HN) in Hinv. lra.
Qed.

Lemma X10_witness :
  exists vp vq,
    coh_geom scene_two_pixels s1_two_pixels 100 Bperp_example pixel0 = Some vp
    /\ coh_geom scene_two_pixels s1_two_pixels 100 Bperp_example pixel1 = Some vq
    /\ vp < vq.
Proof.
  pose proof PI_RGT_0 as Hpi.
  apply (X10_coherence_grows_with_local_incidence
           scene_two_pixels s1_two_pixels 100 Bperp_example pixel0 pixel1
           ((40 - 0) * (PI / 180)) ((45 - 0) * (PI / 180))).
  - unfold Bperp_example. lra.
  - apply theta_iRad_loc_two_pixels; reflexivity.
  - apply theta_iRad_loc_two_pixels; reflexivity.
  - lra.
  - lra.
  - lra.
Defined.

(** X11: where the tangent of the local incidence angle is not zero, the
    coherence falls strictly as the baseline grows and crosses zero at the
    critical baseline lambda r Bw |tan(theta_i,loc)| / c: it is positive
    below it, zero at it and negative above it. *)
Theorem X11_coherence_vanishes_at_critical_baseline :
  forall (sc : Scene) (s1 : S1Image) (look : R) (p : Pixel) (t : R),
    theta_iRad_loc sc s1 look p = Some t ->
    tan t <> 0 ->
    (forall B1 B2, B1 < B2 ->
       exists v1 v2, coh_geom sc s1 look B1 p = Some v1
                     /\ coh_geom sc s1 look B2 p = Some v2
                     /\ v2 < v1)
    /\ (forall B v,
           coh_geom sc s1 look B p = Some v ->
           (v = 0 <->
            B = lambda_value * r_value * Bw_value * Rabs (tan t) / c)
           /\ (0 < v <->
               B < lambda_value * r_value * Bw_value * Rabs (tan t) / c)).
Proof.
  intros sc s1 look p t Ht Htan.
  pose proof (denominator_pos t Htan) as Hd.
  pose proof c_pos as Hc.
  set (D := lambda_value * r_value * Rabs (tan t) * Bw_value) in *.
  pose proof (Rinv_0_lt_compat _ Hd) as Hinv.
  assert (Hone : D * / D = 1) by (field; lra).
  assert (Hcone : c * / c = 1) by (field; lra).
  pose proof (Rinv_0_lt_compat _ Hc) as Hcinv.
  split.
  - intros B1 B2 HB.
    rewrite !(coh_geom_at _ _ _ _ _ _ Ht). fold D.
    eexists. eexists. split; [reflexivity | split; [reflexivity |]].
    unfold Rdiv. set (k := / D) in *.
    assert (c * B1 < c * B2) by nra. nra.
  - intros B v Hv.
    rewrite (coh_geom_at _ _ _ _ _ _ Ht) in Hv. fold D in Hv.
    inversion Hv as [Hv']. clear Hv.
    replace (lambda_value * r_value * Bw_value * Rabs (tan t)) with D
      by (unfold D; ring).
    unfold Rdiv. set (k := / D) in *. set (j := / c) in *.
    assert (Hcrit : c * (D * j) * k = 1).
    { replace (c * (D * j) * k) with ((c * j) * (D * k)) by ring.
      rewrite Hcone, Hone. ring. }
    assert (Hform : c * B * k - 1 = c * k * (B - D * j)).
    { replace (c * k * (B - D * j)) with (c * B * k - c * (D * j) * k) by ring.
      now rewrite Hcrit. }
    assert (Hck : 0 < c * k) by nra.
    split; split; intros H.
    + assert (c * k * (B - D * j) = 0) by lra. nra.
    + rewrite H. lra.
    + assert (c * k * (B - D * j) < 0) by lra. nra.
    + assert (c * k * (B - D * j) < 0) by nra. lra.
Qed.

Lemma X11_witness :
  (forall B1 B2, B1 < B2 ->
     exists v1 v2,
       coh_geom scene_flat45 (s1_uniform 45 100) 100 B1 pixel0 = Some v1
       /\ coh_geom scene_flat45 (s1_uniform 45 100) 100 B2 pixel0 = Some v2
       /\ v2 < v1)
  /\ (forall B v,
         coh_geom scene_flat45 (s1_uniform 45 100) 100 B pixel0 = Some v ->
         (v = 0 <->
          B = lambda_value * r_value * Bw_value
              * Rabs (tan ((45 - 0) * (PI / 180))) / c)
         /\ (0 < v <->
             B < lambda_value * r_value * Bw_value
                 * Rabs (tan ((45 - 0) * (PI / 180))) / c)).
Proof.
  apply (X11_coherence_vanishes_at_critical_baseline
           scene_flat45 (s1_uniform 45 100) 100 pixel0 ((45 - 0) * (PI / 180))).
  - exact theta_iRad_loc_flat45.
  - exact tan_flat45.
Defined.

(** ** What a zonal median can be (lines 81-85 and the five other tables) *)

Lemma median_between (l : list R) (m : R) :
  Reducer.median l = Some m ->
  exists x y, In x l /\ In y l /\ m = (x + y) / 2.
Proof.
  intros H.
  assert (Hin : forall v, In v (sort l) -> In v l).
  { intros v Hv. apply Permutation_in with (sort l); [| exact Hv].
    apply Permutation_sym, sort_perm. }
  unfold Reducer.median in H.
  destruct (sort l) as [| x t] eqn:Hs; [discriminate |].
  set (s := x :: t) in *.
  set (n := List.length s) in *.
  assert (Hpos : (0 < n)%nat) by (unfold n, s; cbn; lia).
  assert (Hmid : In (nth (n / 2) s 0) s).
  { apply nth_In. fold n. apply Nat.div_lt; lia. }
  assert (Hlow : In (nth (n / 2 - 1) s 0) s).
  { apply nth_In. fold n. pose proof (Nat.div_lt n 2 Hpos). lia. }
  remember (nth (n / 2) s 0) as hi.
  remember (nth (n / 2 - 1) s 0) as lo.
  destruct (Nat.even n); injection H as <-.
  - exists lo, hi. auto.
  - exists hi, hi. split; [auto | split; [auto | lra]].
Qed.

(** Every statistic of a table is the mid-point of two unmasked pixel values
    of the raster (possibly the same one). *)
Lemma reduceRegions_statistic (img : image) (coll : list Feature)
    (row : Row) (m : R) :
  In row (reduceRegions img coll Reducer.median) ->
  statistic row = Some m ->
  exists p q x y, img p = Some x /\ img q = Some y /\ m = (x + y) / 2.
Proof.
  unfold reduceRegions. intros Hrow Hm.
  apply in_map_iff in Hrow. destruct Hrow as (f & <- & _).
  cbn in Hm. apply median_between in Hm.
  destruct Hm as (x & y & Hx & Hy & ->).
  apply valid_values_in in Hx. destruct Hx as (p & _ & Hp).
  apply valid_values_in in Hy. destruct Hy as (q & _ & Hq).
  exists p, q, x, y. auto.
Qed.


(** ** The export tasks, read backwards (lines 86-175) *)

Lemma exported_inv (sc : Scene) (B : R) (d : string) (o : outcome Table) :
  exported sc B d = Some o ->
  ((d = "ls_theta_T019D" \/ d = "ls_theta_alpha_difference_T019D")
   /\ o = (s1 <- required (image_s1 sc) null_image ;; Done (ls_theta sc s1)))
  \/ ((d = "ls_slopes" \/ d = "ls_aspects")
      /\ o = (s1 <- required (image_s1 sc) null_image ;; Done (ls_slope sc s1)))
  \/ (d = "ls_slope_in_LOS_T019D"
      /\ o = (s1 <- required (image_s1 sc) null_image ;;
              l <- (s <- required (image_s1 sc) null_image ;;
                    required (look_dir s) null_look_dir) ;;
              Done (ls_alpha sc s1 l)))
  \/ (d = "ls_modelled_coh_geom_T019D"
      /\ o = (s1 <- required (image_s1 sc) null_image ;;
              l <- (s <- required (image_s1 sc) null_image ;;
                    required (look_dir s) null_look_dir) ;;
              Done (ls_modelled_coh_geom sc s1 l B))).
Proof.
  unfold exported, exports, toDrive.
  cbn [find description option_map collection].
  destruct (String.eqb_spec "ls_theta_T019D" d) as [<- | _].
  { cbn. intros [= <-]. left. auto. }
  destruct (String.eqb_spec "ls_slope_in_LOS_T019D" d) as [<- | _].
  { cbn. intros [= <-]. right. right. left. auto. }
  destruct (String.eqb_spec "ls_slopes" d) as [<- | _].
  { cbn. intros [= <-]. right. left. auto. }
  destruct (String.eqb_spec "ls_aspects" d) as [<- | _].
  { cbn. intros [= <-]. right. left. auto. }
  destruct (String.eqb_spec "ls_theta_alpha_difference_T019D" d) as [<- | _].
  { cbn. intros [= <-]. left. auto. }
  destruct (String.eqb_spec "ls_modelled_coh_geom_T019D" d) as [<- | _].
  { cbn. intros [= <-]. right. right. right. auto. }
  cbn. discriminate.
Qed.

Lemma exported_done_inv (sc : Scene) (B : R) (d : string) (t : Table) :
  exported sc B d = Some (Done t) ->
  exists s1, image_s1 sc = Some s1
    /\ (((d = "ls_theta_T019D" \/ d = "ls_theta_alpha_difference_T019D")
         /\ t = ls_theta sc s1)
        \/ ((d = "ls_slopes" \/ d = "ls_aspects") /\ t = ls_slope sc s1)
        \/ (exists l, look_dir s1 = Some l
                      /\ d = "ls_slope_in_LOS_T019D"
                      /\ t = ls_alpha sc s1 l)
        \/ (exists l, look_dir s1 = Some l
                      /\ d = "ls_modelled_coh_geom_T019D"
                      /\ t = ls_modelled_coh_geom sc s1 l B)).
Proof.
  intros H. apply exported_inv in H.
  destruct (image_s1 sc) as [s1 |]; cbn in H.
  - exists s1. split; [reflexivity |].
    destruct H as [[Hd H] | [[Hd H] | [[Hd H] | [Hd H]]]].
    + left. split; [exact Hd | congruence].
    + right. left. split; [exact Hd | congruence].
    + right. right. left.
      destruct (look_dir s1) as [l |]; cbn in H; [| discriminate].
      exists l. repeat split; congruence.
    + right. right. right.
      destruct (look_dir s1) as [l |]; cbn in H; [| discriminate].
      exists l. repeat split; congruence.
  - destruct H as [[_ H] | [[_ H] | [[_ H] | [_ H]]]]; discriminate.
Qed.

Lemma coh_pixel_le_one (sc : Scene) (s1 : S1Image) (look B : R) (p : Pixel) (v : R) :
  0 <= B -> coh_geom sc s1 look B p = Some v -> v <= 1.
Proof.
  intros HB Hv.
  destruct (theta_iRad_loc sc s1 look p) as [t |] eqn:Ht.
  - rewrite (coh_geom_at _ _ _ _ _ _ Ht) in Hv. injection Hv as <-.
    pose proof (inv_nonneg _ (denominator_nonneg t)) as Hinv.
    pose proof c_pos as Hc.
    unfold Rdiv.
    set (k := / (lambda_value * r_value * Rabs (tan t) * Bw_value)) in *.
    assert (0 <= c * B) by nra. nra.
  - rewrite (coh_geom_masked _ _ _ _ _ Ht) in Hv. discriminate.
Qed.

(** X12: for a baseline that is not negative, no statistic of the exported
    coherence table exceeds 1. *)
Theorem X12_exported_coherence_at_most_one :
  forall (sc : Scene) (B : R) (t : Table) (row : Row) (v : R),
    0 <= B ->
    exported sc B "ls_modelled_coh_geom_T019D" = Some (Done t) ->
    In row t ->
    statistic row = Some v ->
    v <= 1.
Proof.
  intros sc B t row v HB Hexp Hrow Hv.
  apply exported_done_inv in Hexp.
  destruct Hexp as (s1 & _ & [[[Hd | Hd] _] | [[[Hd | Hd] _] |
                    [(l & _ & Hd & _) | (l & _ & _ & ->)]]]);
    try discriminate Hd.
  unfold ls_modelled_coh_geom in Hrow.
  destruct (reduceRegions_statistic _ _ _ _ Hrow Hv)
    as (p & q & x & y & Hp & Hq & ->).
  apply (coh_pixel_le_one _ _ _ _ _ _ HB) in Hp.
  apply (coh_pixel_le_one _ _ _ _ _ _ HB) in Hq.
  lra.
Qed.

Lemma X12_witness :
  1 - c * Bperp_example
      / (lambda_value * r_value * Rabs (tan ((45 - 0) * (PI / 180))) * Bw_value)
  <= 1.
Proof.
  apply (X12_exported_coherence_at_most_one
           scene_flat45 Bperp_example
           (ls_modelled_coh_geom scene_flat45 (s1_uniform 45 100) 100
                                 Bperp_example)
           (mkRow "landslide1"
              (coh_geom scene_flat45 (s1_uniform 45 100) 100 Bperp_example
                        pixel0))).
  - unfold Bperp_example. lra.
  - apply exported_ls_modelled_coh_geom;
      [apply image_s1_uniform | apply look_dir_uniform].
  - unfold ls_modelled_coh_geom.
    change (landslides scene_flat45) with [mkFeature "landslide1" [pixel0]].
    rewrite reduceRegions_one_pixel. now left.
  - cbn [statistic]. apply coh_geom_at. exact theta_iRad_loc_flat45.
Defined.

(** X13: every statistic of the exported table of slopes in the line of
    sight lies strictly between -PI/2 and PI/2. *)
Theorem X13_exported_range_slope_in_quarter_turn :
  forall (sc : Scene) (B : R) (t : Table) (row : Row) (v : R),
    exported sc B "ls_slope_in_LOS_T019D" = Some (Done t) ->
    In row t ->
    statistic row = Some v ->
    - (PI / 2) < v < PI / 2.
Proof.
  intros sc B t row v Hexp Hrow Hv.
  apply exported_done_inv in Hexp.
  destruct Hexp as (s1 & _ & [[[Hd | Hd] _] | [[[Hd | Hd] _] |
                    [(l & _ & _ & ->) | (l & _ & Hd & _)]]]);
    try discriminate Hd.
  unfold ls_alpha in Hrow.
  destruct (reduceRegions_statistic _ _ _ _ Hrow Hv)
    as (p & q & x & y & Hp & Hq & ->).
  apply alpha_rRad_at in Hp. destruct Hp as (sp & fp & _ & _ & ->).
  apply alpha_rRad_at in Hq. destruct Hq as (sq & fq & _ & _ & ->).
  pose proof (atan_bound (tan sp * cos fp)).
  pose proof (atan_bound (tan sq * cos fq)).
  lra.
Qed.

Lemma X13_witness :
  - (PI / 2) < 30 * (PI / 180) < PI / 2.
Proof.
  apply (X13_exported_range_slope_in_quarter_turn
           scene_facing Bperp_example
           (ls_alpha scene_facing (s1_uniform 40 100) 100)
           (mkRow "landslide1" (Some (30 * (PI / 180))))).
  - apply exported_ls_slope_in_LOS;
      [apply image_s1_uniform | apply look_dir_uniform].
  - unfold ls_alpha.
    change (landslides scene_facing) with [mkFeature "landslide1" [pixel0]].
    rewrite reduceRegions_one_pixel.
    rewrite (alpha_rRad_facing _ _ _ _ 30); try reflexivity; try lra.
    now left.
  - reflexivity.
Defined.





(** ** The look direction (line 51) *)

Lemma valid_values_nil (img : image) (g : Geometry) :
  valid_values img g = [] <-> forall p, In p g -> img p = None.
Proof.
  split.
  - intros Hnil p Hp.
    destruct (img p) as [v |] eqn:Hv; [| reflexivity].
    assert (Hin : In v (valid_values img g)).
    { apply valid_values_in. exists p. auto. }
    rewrite Hnil in Hin. destruct Hin.
  - apply valid_values_masked.
Qed.

Lemma sum_between (l : list R) (lo hi : R) :
  (forall x, In x l -> lo <= x <= hi) ->
  INR (List.length l) * lo <= fold_right Rplus 0 l <= INR (List.length l) * hi.
Proof.
  induction l as [| x t IH]; intros Hall.
  - cbn. lra.
  - cbn [List.length fold_right]. rewrite S_INR.
    pose proof (Hall x (or_introl eq_refl)).
    assert (Ht : forall y, In y t -> lo <= y <= hi).
    { intros y Hy. apply Hall. now right. }
    specialize (IH Ht). lra.
Qed.

Lemma mean_between (l : list R) (lo hi m : R) :
  (forall x, In x l -> lo <= x <= hi) ->
  Reducer.mean l = Some m ->
  lo <= m <= hi.
Proof.
  intros Hall Hm.
  pose proof (sum_between l lo hi Hall) as [Hlo Hhi].
  destruct l as [| x t]; [discriminate |].
  cbn [Reducer.mean] in Hm. injection Hm as <-.
  set (n := INR (List.length (x :: t))) in *.
  assert (Hn : 0 < n).
  { unfold n. apply lt_0_INR. cbn. lia. }
  pose proof (Rinv_0_lt_compat _ Hn) as Hinv.
  assert (Hone : n * / n = 1) by (field; lra).
  unfold Rdiv. set (k := / n) in *.
  set (total := fold_right Rplus 0 (x :: t)) in *.
  assert (Hcancel : forall a, n * a * k = a).
  { intros a. rewrite (Rmult_comm n a), Rmult_assoc, Hone. ring. }
  split.
  - assert (H : n * lo * k <= total * k) by (apply Rmult_le_compat_r; lra).
    now rewrite Hcancel in H.
  - assert (H : total * k <= n * hi * k) by (apply Rmult_le_compat_r; lra).
    now rewrite Hcancel in H.
Qed.

(** X16: the look direction is undefined exactly when the aspect of the
    incidence-angle band is masked on the whole image footprint; when it is
    defined it lies between the smallest and the largest bearing found
    there. *)
Theorem X16_look_direction_is_a_mean_bearing :
  forall (s1 : S1Image),
    (look_dir s1 = None <->
     forall p, In p (geometry s1) -> angle_aspect s1 p = None)
    /\ (forall lo hi l,
           (forall p v, In p (geometry s1) ->
                        angle_aspect s1 p = Some v -> lo <= v <= hi) ->
           look_dir s1 = Some l ->
           lo <= l <= hi).
Proof.
  intros s1. unfold look_dir, reduceRegion, geom_s1. split.
  - rewrite <- valid_values_nil.
    destruct (valid_values (angle_aspect s1) (geometry s1));
      cbn; split; congruence.
  - intros lo hi l Hall Hl.
    apply (mean_between _ lo hi l) in Hl; [exact Hl |].
    intros x Hx. apply valid_values_in in Hx.
    destruct Hx as (p & Hp & Hv). eapply Hall; eassumption.
Qed.

Lemma X16_witness :
  0 <= 100 <= 360.
Proof.
  apply (X16_look_direction_is_a_mean_bearing (s1_uniform 40 100)).
  - intros p v _ Hv. injection Hv as <-. lra.
  - apply look_dir_uniform.
Defined.

(** X17: the mean is taken on the bearings as numbers, not as directions:
    two pixels whose bearings lie at the same distance on either side of
    north (d and 360 - d degrees) give a look direction of 180 degrees,
    due south, however close to north both are. *)
Theorem X17_look_direction_does_not_wrap :
  forall (s1 : S1Image) (p q : Pixel) (d : R),
    geometry s1 = [p; q] ->
    angle_aspect s1 p = Some d ->
    angle_aspect s1 q = Some (360 - d) ->
    look_dir s1 = Some 180.
Proof.
  intros s1 p q d Hg Hp Hq.
  unfold look_dir, reduceRegion, geom_s1, valid_values.
  rewrite Hg. cbn [flat_map]. rewrite Hp, Hq.
  cbn [app Reducer.mean fold_right List.length].
  f_equal. rewrite !S_INR. cbn [INR]. field.
Qed.

Lemma X17_witness :
  look_dir s1_two_pixels = Some 180.
Proof.
  apply (X17_look_direction_does_not_wrap s1_two_pixels pixel0 pixel1 350);
    reflexivity.
Defined.

(** ** The order in which a footprint lists its pixels *)

Lemma strongly_sorted_unique (l1 l2 : list R) :
  StronglySorted Rle l1 -> StronglySorted Rle l2 ->
  Permutation l1 l2 -> l1 = l2.
Proof.
  revert l2. induction l1 as [| x t1 IH]; intros l2 H1 H2 Hperm.
  - symmetry. now apply Permutation_nil.
  - destruct l2 as [| y t2].
    + apply Permutation_sym, Permutation_nil_cons in Hperm. destruct Hperm.
    + apply StronglySorted_inv in H1. destruct H1 as [Ht1 Hx].
      apply StronglySorted_inv in H2. destruct H2 as [Ht2 Hy].
      rewrite Forall_forall in Hx, Hy.
      assert (Hxy : x <= y).
      { assert (Hin : In y (x :: t1)).
        { apply Permutation_in with (y :: t2);
            [now apply Permutation_sym | now left]. }
        destruct Hin as [-> | Hin]; [lra | now apply Hx]. }
      assert (Hyx : y <= x).
      { assert (Hin : In x (y :: t2)).
        { apply Permutation_in with (x :: t1); [exact Hperm | now left]. }
        destruct Hin as [-> | Hin]; [lra | now apply Hy]. }
      assert (x = y) by lra. subst y.
      f_equal. apply IH; try assumption.
      now apply Permutation_cons_inv in Hperm.
Qed.

Lemma sort_strongly_sorted (l : list R) : StronglySorted Rle (sort l).
Proof.
  apply Sorted_StronglySorted.
  - intros a b c0. apply Rle_trans.
  - apply sort_sorted.
Qed.

Lemma median_permutation (l l' : list R) :
  Permutation l l' -> Reducer.median l = Reducer.median l'.
Proof.
  intros Hperm.
  assert (Hsort : sort l = sort l').
  { apply strongly_sorted_unique; try apply sort_strongly_sorted.
    apply Permutation_trans with l; [apply Permutation_sym, sort_perm |].
    apply Permutation_trans with l'; [exact Hperm | apply sort_perm]. }
  unfold Reducer.median. now rewrite Hsort.
Qed.

(** X18: a zonal median does not depend on the order in which the footprints
    list their pixels: two inventories with the same identifiers, in the
    same order, whose footprints hold the same pixels give the same table. *)
Theorem X18_zonal_median_ignores_pixel_order :
  forall (img : image) (coll coll' : list Feature),
    Forall2 (fun f f' => object_id f = object_id f'
                         /\ Permutation (geometry_of f) (geometry_of f'))
            coll coll' ->
    reduceRegions img coll Reducer.median
    = reduceRegions img coll' Reducer.median.
Proof.
  intros img coll coll' Hall.
  unfold reduceRegions.
  induction Hall as [| f f' rest rest' [Hid Hperm] _ IH]; [reflexivity |].
  cbn [map]. rewrite IH, Hid. do 2 f_equal.
  apply median_permutation.
  unfold valid_values. now apply Permutation_flat_map.
Qed.

Lemma X18_witness :
  reduceRegions (theta_iRad s1_two_pixels) [polygon_listed] Reducer.median
  = reduceRegions (theta_iRad s1_two_pixels) [polygon_relisted] Reducer.median.
Proof.
  apply (X18_zonal_median_ignores_pixel_order
           (theta_iRad s1_two_pixels) [polygon_listed] [polygon_relisted]).
  constructor; [| constructor].
  split; [reflexivity |]. apply perm_swap.
Defined.

(** ** Landslides outside the image footprint *)

Lemma reduceRegions_nth (img : image) (coll : list Feature)
    (reducer : list R -> option R) (i : nat) (f : Feature) :
  nth_error coll i = Some f ->
  nth_error (reduceRegions img coll reducer) i
  = Some (mkRow (object_id f) (reducer (valid_values img (geometry_of f)))).
Proof.
  intros Hf. unfold reduceRegions. now rewrite nth_error_map, Hf.
Qed.

Lemma reduceRegions_masked (img : image) (coll : list Feature)
    (i : nat) (f : Feature) :
  nth_error coll i = Some f ->
  (forall p, In p (geometry_of f) -> img p = None) ->
  nth_error (reduceRegions img coll Reducer.median) i
  = Some (mkRow (object_id f) None).
Proof.
  intros Hf Hmasked.
  rewrite (reduceRegions_nth _ _ _ _ _ Hf).
  now rewrite (valid_values_masked _ _ Hmasked).
Qed.

Lemma outside_footprint (sc : Scene) (s1 : S1Image) (look B : R) (p : Pixel) :
  contains (geometry s1) p = false ->
  theta_iRad s1 p = None
  /\ alpha_sRad sc s1 p = None
  /\ phi_sRad sc s1 p = None
  /\ alpha_rRad sc s1 look p = None
  /\ theta_iRad_loc sc s1 look p = None
  /\ coh_geom sc s1 look B p = None.
Proof.
  intros Hout.
  assert (Hti : theta_iRad s1 p = None)
    by (now rewrite theta_iRad_formula, Hout).
  assert (Har : alpha_rRad sc s1 look p = None)
    by (now rewrite alpha_rRad_formula, Hout).
  assert (Hloc : theta_iRad_loc sc s1 look p = None)
    by (now rewrite theta_iRad_loc_formula, Hti).
  repeat split; try assumption.
  - unfold alpha_sRad, geom_s1; unfold_ops. now rewrite Hout.
  - unfold phi_sRad, geom_s1; unfold_ops. now rewrite Hout.
  - now apply coh_geom_masked.
Qed.

(** X19: a landslide none of whose pixels lies inside the footprint of the
    Sentinel-1 image gets a row without statistic in each of the six zonal
    tables, whatever the rasters hold there. *)
Theorem X19_landslide_outside_footprint_has_no_statistic :
  forall (sc : Scene) (s1 : S1Image) (look B : R) (i : nat) (f : Feature),
    nth_error (landslides sc) i = Some f ->
    (forall p, In p (geometry_of f) -> contains (geometry s1) p = false) ->
    let absent := Some (mkRow (object_id f) None) in
    nth_error (ls_theta sc s1) i = absent
    /\ nth_error (ls_alpha sc s1 look) i = absent
    /\ nth_error (ls_slope sc s1) i = absent
    /\ nth_error (ls_aspect sc s1) i = absent
    /\ nth_error (ls_theta_alpha_difference sc s1 look) i = absent
    /\ nth_error (ls_modelled_coh_geom sc s1 look B) i = absent.
Proof.
  intros sc s1 look B i f Hf Hout absent. unfold absent.
  unfold ls_theta, ls_alpha, ls_slope, ls_aspect, ls_theta_alpha_difference,
    ls_modelled_coh_geom.
  repeat split;
    apply (reduceRegions_masked _ _ _ _ Hf);
    intros p Hp;
    destruct (outside_footprint sc s1 look B p (Hout p Hp))
      as (H1 & H2 & H3 & H4 & H5 & H6);
    assumption.
Qed.

Lemma X19_witness :
  nth_error (ls_theta scene_outside (s1_uniform 40 100)) 0
  = Some (mkRow "landslide3" None)
  /\ nth_error (ls_modelled_coh_geom scene_outside (s1_uniform 40 100)
                                     100 Bperp_example) 0
     = Some (mkRow "landslide3" None).
Proof.
  destruct (X19_landslide_outside_footprint_has_no_statistic
              scene_outside (s1_uniform 40 100) 100 Bperp_example
              0 polygon_uncovered eq_refl)
    as (H1 & _ & _ & _ & _ & H6).
  - intros p [<- | [<- | []]]; reflexivity.
  - split; assumption.
Defined.

(** ** Units of the exported incidence angles (lines 55 and 81-91) *)

(** X20: the exported incidence-angle table is in radians: if the incidence
    band stays between lo and hi degrees on the image footprint, every
    statistic of the table lies between lo * PI/180 and hi * PI/180. *)
Theorem X20_exported_incidence_angles_are_in_radians :
  forall (sc : Scene) (B : R) (s1 : S1Image) (lo hi : R)
         (t : Table) (row : Row) (v : R),
    image_s1 sc = Some s1 ->
    (forall p a, In p (geometry s1) -> angle s1 p = Some a -> lo <= a <= hi) ->
    exported sc B "ls_theta_T019D" = Some (Done t) ->
    In row t ->
    statistic row = Some v ->
    lo * (PI / 180) <= v <= hi * (PI / 180).
Proof.
  intros sc B s1 lo hi t row v Himg Hband Hexp Hrow Hv.
  rewrite (exported_ls_theta _ _ _ Himg) in Hexp. injection Hexp as <-.
  unfold ls_theta in Hrow.
  destruct (reduceRegions_statistic _ _ _ _ Hrow Hv)
    as (p & q & x & y & Hp & Hq & ->).
  assert (Hpix : forall p0 x0, theta_iRad s1 p0 = Some x0 ->
                               lo * (PI / 180) <= x0 <= hi * (PI / 180)).
  { intros p0 x0 H0. rewrite theta_iRad_formula in H0.
    destruct (contains (geometry s1) p0) eqn:Hin; [| discriminate].
    destruct (angle s1 p0) as [a |] eqn:Ha; [| discriminate].
    injection H0 as <-.
    assert (Hmem : In p0 (geometry s1)).
    { unfold contains in Hin. apply existsb_exists in Hin.
      destruct Hin as (g & Hg & Heq).
      unfold pixel_eqb in Heq. apply andb_true_iff in Heq.
      destruct Heq as [H1 H2]. apply Z.eqb_eq in H1, H2.
      destruct p0 as [px py], g as [gx gy]. cbn in H1, H2. now subst. }
    pose proof (Hband p0 a Hmem Ha). pose proof PI_RGT_0. split; nra. }
  pose proof (Hpix p x Hp). pose proof (Hpix q y Hq). lra.
Qed.

Lemma X20_witness :
  29 * (PI / 180) <= 40 * (PI / 180) <= 46 * (PI / 180).
Proof.
  apply (X20_exported_incidence_angles_are_in_radians
           scene_facing Bperp_example (s1_uniform 40 100) 29 46
           (ls_theta scene_facing (s1_uniform 40 100))
           (mkRow "landslide1" (Some (40 * (PI / 180))))).
  - apply image_s1_uniform.
  - intros p a _ Ha. injection Ha as <-. lra.
  - apply exported_ls_theta. apply image_s1_uniform.
  - unfold ls_theta.
    change (landslides scene_facing) with [mkFeature "landslide1" [pixel0]].
    rewrite reduceRegions_one_pixel. now left.
  - reflexivity.
Defined.
